(** * Ticket allocation and drawing engine (src/utils/ticketSystem.ts)

    A shallow embedding of [assignTicketsToGuides], [drawRandomTicket] and
    [drawRandomTickets], and the properties of the raffle specification
    stated over it.

    Conventions of the embedding.
    - A JavaScript [number] that the code uses as a count, an identifier or a
      ticket is an unbounded integer ([Z]); array indices and lengths are
      natural numbers.
    - [Math.random()] is read from a tape: the [k]-th call returns the
      [k]-th entry [r] of the tape, and [Math.floor(Math.random() * n)] is
      [r mod n], an index of [[0, n)]; every index of [[0, n)] is the outcome
      of some entry. The functions thread the position on the tape.
    - A [GuideWithTickets] object is known by its reference; the objects a
      call can reach are given by a store from references to contents.
      [Array.prototype.indexOf] compares references. *)

From Stdlib Require Import QArith.QArith_base.
From stdpp Require Import base numbers list sorting gmap strings.

Open Scope Z_scope.

(** ** Data model *)

(** [interface Guide] (src/types, as listed in the README). The three
    performance metrics are never inspected by ticketSystem.ts. *)
Record Guide := mkGuide {
  guide_id : Z;
  name : string;
  supervisor : string;
  department : string;
  nps : Q;
  nrpc : Q;
  refundPercent : Q;
  totalTickets : Z
}.

(** [ticketRange: { start: number; end: number }] *)
Record TicketRange := mkTicketRange {
  range_start : Z;
  range_end : Z
}.

(** [interface GuideWithTickets extends Guide]: the fields of the guide
    (copied by the spread [...guide]) and the two added fields. *)
Record GuideWithTickets := mkGuideWithTickets {
  guide : Guide;
  ticketNumbers : list Z;
  ticketRange : TicketRange
}.

(** ** The random source *)

Definition tape := nat → nat.

(** [Math.floor(Math.random() * n)], reading the entry at position [pos]. *)
Definition random_index (rnd : tape) (pos : nat) (n : nat) : nat :=
  (rnd pos `mod` n)%nat.

(** ** Completion of a call

    ticketSystem.ts contains no [throw] statement and the array operations
    it calls raise nothing on the inputs modelled here: a call of one of
    its functions always completes normally. [InvalidInputError] is the
    error of the specification's taxonomy. *)
Inductive error := InvalidInputError.

Inductive completion (A : Type) :=
  | Normal (v : A)
  | Throw (e : error).
Arguments Normal {A} v.
Arguments Throw {A} e.

(** ** Ticket Allocator: [assignTicketsToGuides] *)

(** [guides.reduce((sum, guide) => sum + guide.totalTickets, 0)] *)
Definition sumTotalTickets (guides : list Guide) : Z :=
  fold_left (λ sum g, sum + totalTickets g) guides 0.

(** [Array.from({ length: totalTickets }, (_, i) => i + 1)]; a negative
    length is read as 0 (ToLength). *)
Definition ticketSequence (total : Z) : list Z :=
  (λ i : nat, Z.of_nat i + 1) <$> seq 0 (Z.to_nat total).

(** [[a[i], a[j]] = [a[j], a[i]]]: the right-hand side is evaluated first,
    then [a[i]] and [a[j]] are assigned in that order. *)
Definition swap (a : list Z) (i j : nat) : list Z :=
  let rhs0 := a !!! j in
  let rhs1 := a !!! i in
  <[j := rhs1]> (<[i := rhs0]> a).

(** [for (let i = allTickets.length - 1; i > 0; i--)
       { const j = Math.floor(Math.random() * (i + 1)); swap i j }] *)
Fixpoint shuffle_loop (rnd : tape) (i : nat) (pos : nat) (allTickets : list Z)
    : list Z * nat :=
  match i with
  | O => (allTickets, pos)
  | S i' =>
      let j := random_index rnd pos (i + 1) in
      shuffle_loop rnd i' (S pos) (swap allTickets i j)
  end.

Definition shuffleTickets (rnd : tape) (pos : nat) (allTickets : list Z)
    : list Z * nat :=
  shuffle_loop rnd (length allTickets - 1) pos allTickets.

(** The successive contents of the array during the shuffle, one per
    iteration (used to compare the loop with the reference step by step). *)
Fixpoint shuffle_trace (rnd : tape) (i : nat) (pos : nat) (allTickets : list Z)
    : list (list Z) :=
  match i with
  | O => []
  | S i' =>
      let j := random_index rnd pos (i + 1) in
      let a' := swap allTickets i j in
      a' :: shuffle_trace rnd i' (S pos) a'
  end.

(** [for (let i = 0; i < guide.totalTickets; i++)
       if (ticketIndex < allTickets.length)
         { ticketNumbers.push(allTickets[ticketIndex]); ticketIndex++; }]
    with [n] the number of iterations left. *)
Fixpoint takeTickets (n : nat) (allTickets : list Z) (ticketIndex : nat)
    (ticketNumbers : list Z) : list Z * nat :=
  match n with
  | O => (ticketNumbers, ticketIndex)
  | S n' =>
      if decide (ticketIndex < length allTickets)%nat
      then takeTickets n' allTickets (S ticketIndex)
             (ticketNumbers ++ [allTickets !!! ticketIndex])
      else takeTickets n' allTickets ticketIndex ticketNumbers
  end.

(** [ticketNumbers.sort((a, b) => a - b)]: ascending order. *)
Definition sortTickets (ticketNumbers : list Z) : list Z :=
  merge_sort Z.le ticketNumbers.

(** [ticketNumbers.length > 0 ? Math.min(...ticketNumbers) : 0] and the same
    with [Math.max]. *)
Definition rangeOf (ticketNumbers : list Z) : TicketRange :=
  match ticketNumbers with
  | [] => mkTicketRange 0 0
  | t :: ts => mkTicketRange (fold_left Z.min ts t) (fold_left Z.max ts t)
  end.

(** One iteration of [for (const guide of guides)]; the state is
    [ticketIndex] and the array [guidesWithTickets] built so far. *)
Definition assignGuide (allTickets : list Z)
    (st : nat * list GuideWithTickets) (g : Guide)
    : nat * list GuideWithTickets :=
  let '(ticketIndex, guidesWithTickets) := st in
  let '(taken, ticketIndex') :=
    takeTickets (Z.to_nat (totalTickets g)) allTickets ticketIndex [] in
  let ticketNumbers := sortTickets taken in
  (ticketIndex',
   guidesWithTickets ++ [mkGuideWithTickets g ticketNumbers (rangeOf ticketNumbers)]).

(** [assignTicketsToGuides]: the result and the position reached on the
    tape. *)
Definition assignTicketsToGuides (rnd : tape) (pos : nat) (guides : list Guide)
    : list GuideWithTickets * nat :=
  let total := sumTotalTickets guides in
  let allTickets := ticketSequence total in
  let '(shuffled, pos') := shuffleTickets rnd pos allTickets in
  (snd (fold_left (assignGuide shuffled) guides (0%nat, [])), pos').

(** The call as its caller sees it ([allocate] in the specification). *)
Definition allocate (rnd : tape) (pos : nat) (guides : list Guide)
    : completion (list GuideWithTickets) :=
  Normal (fst (assignTicketsToGuides rnd pos guides)).

(** ** Draw Engine: [drawRandomTicket] and [drawRandomTickets]

    The functions of this part work on the contents of the arrays; the
    module [Store] below gives the same functions on arrays held in a
    mutable store. *)

(** A reference to a [GuideWithTickets] object, and the objects behind the
    references. *)
Definition ref := nat.
Definition objects := ref → GuideWithTickets.

(** The identifier of the participant behind a reference ([guide.id]). *)
Definition participant (objs : objects) (g : ref) : Z :=
  guide_id (guide (objs g)).

(** An entry [{ ticket: ticketNumber, guide }] of [allAvailableTickets]. *)
Record Candidate := mkCandidate {
  cand_ticket : Z;
  cand_guide : ref
}.

#[global] Instance Candidate_inhabited : Inhabited Candidate :=
  populate (mkCandidate 0 0%nat).

(** [guidesWithTickets.forEach(guide =>
       guide.ticketNumbers.forEach(ticketNumber =>
         allAvailableTickets.push({ ticket: ticketNumber, guide })))] *)
Definition collectTickets (objs : objects) (guidesWithTickets : list ref)
    : list Candidate :=
  fold_left
    (λ acc g,
       fold_left (λ acc' t, acc' ++ [mkCandidate t g]) (ticketNumbers (objs g)) acc)
    guidesWithTickets [].

(** [{ winner: GuideWithTickets | null, drawnTicket: number | null }] *)
Record Draw := mkDraw {
  winner : option ref;
  drawnTicket : option Z
}.

(** [drawRandomTicket]: the result and the position reached on the tape
    ([Math.random] is not called when there is no ticket). *)
Definition drawRandomTicket (rnd : tape) (objs : objects) (pos : nat)
    (guidesWithTickets : list ref) : Draw * nat :=
  let allAvailableTickets := collectTickets objs guidesWithTickets in
  if decide (length allAvailableTickets = 0%nat)
  then (mkDraw None None, pos)
  else
    let randomIndex := random_index rnd pos (length allAvailableTickets) in
    let selectedTicket := allAvailableTickets !!! randomIndex in
    (mkDraw (Some (cand_guide selectedTicket)) (Some (cand_ticket selectedTicket)),
     S pos).

(** [a.indexOf(x)]: the first index holding the reference [x], or -1. *)
Fixpoint indexOf_from (a : list ref) (x : ref) (i : Z) : Z :=
  match a with
  | [] => -1
  | y :: a' => if decide (y = x) then i else indexOf_from a' x (i + 1)
  end.

Definition indexOf (a : list ref) (x : ref) : Z := indexOf_from a x 0.

(** [a.splice(start, 1)]: a negative [start] counts from the end of the
    array, and nothing is removed when [start] is the length or more. *)
Definition splice1 (start : Z) (a : list ref) : list ref :=
  let len := Z.of_nat (length a) in
  let actualStart :=
    if decide (start < 0) then Z.max (len + start) 0 else Z.min start len in
  delete (Z.to_nat actualStart) a.

(** Truthiness of a number in [winnerGuide && drawnTicket]: 0 is falsy. *)
Definition truthy (n : Z) : bool := negb (n =? 0).

(** [{ winners: GuideWithTickets[], drawnTickets: number[] }] *)
Record Drawn := mkDrawn {
  winners : list ref;
  drawnTickets : list Z
}.

(** The state of the loop of [drawRandomTickets]. *)
Record LoopState := mkLoopState {
  ls_winners : list ref;
  ls_drawnTickets : list Z;
  ls_availableGuides : list ref;
  ls_pos : nat
}.

(** [for (let i = 0; i < count && availableGuides.length > 0; i++) { ... }]
    with [n] the number of values [i < count] left to visit. *)
Fixpoint draw_loop (rnd : tape) (objs : objects) (n : nat) (st : LoopState)
    : LoopState :=
  match n with
  | O => st
  | S n' =>
      if decide (0 < length (ls_availableGuides st))%nat
      then
        let '(d, pos') := drawRandomTicket rnd objs (ls_pos st) (ls_availableGuides st) in
        match winner d, drawnTicket d with
        | Some winnerGuide, Some t =>
            if truthy t
            then
              let index := indexOf (ls_availableGuides st) winnerGuide in
              draw_loop rnd objs n'
                (mkLoopState (ls_winners st ++ [winnerGuide])
                   (ls_drawnTickets st ++ [t])
                   (splice1 index (ls_availableGuides st)) pos')
            else
              draw_loop rnd objs n'
                (mkLoopState (ls_winners st) (ls_drawnTickets st)
                   (ls_availableGuides st) pos')
        | _, _ =>
            draw_loop rnd objs n'
              (mkLoopState (ls_winners st) (ls_drawnTickets st)
                 (ls_availableGuides st) pos')
        end
      else st
  end.

(** The state in which [drawRandomTickets] leaves its loop;
    [availableGuides] starts as the copy [[...guidesWithTickets]]. *)
Definition drawRandomTickets_run (rnd : tape) (objs : objects) (pos : nat)
    (guidesWithTickets : list ref) (count : Z) : LoopState :=
  draw_loop rnd objs (Z.to_nat count) (mkLoopState [] [] guidesWithTickets pos).

Definition drawRandomTickets (rnd : tape) (objs : objects) (pos : nat)
    (guidesWithTickets : list ref) (count : Z) : Drawn :=
  let st := drawRandomTickets_run rnd objs pos guidesWithTickets count in
  mkDrawn (ls_winners st) (ls_drawnTickets st).

(** The call as its caller sees it ([drawWinners] in the specification). *)
Definition drawWinners (rnd : tape) (objs : objects) (pos : nat)
    (pool : list ref) (count : Z) : completion Drawn :=
  Normal (drawRandomTickets rnd objs pos pool count).

(** ** The draw engine on a mutable store

    Arrays of guide references are objects of the store, known by their
    location: the argument [guidesWithTickets] is a location, [[...a]]
    allocates a new array and [splice] updates an array in place. The arrays
    that a function creates, only pushes onto and returns or drops
    ([allAvailableTickets], [winners], [drawnTickets]) are kept as values. *)
Module Store.

Definition loc := nat.

Record heap := mkHeap {
  guideObjects : objects;
  arrays : gmap loc (list ref)
}.

(** The contents of the array at [a]. *)
Definition readArray (h : heap) (a : loc) : list ref :=
  default [] (arrays h !! a).

(** A new array with the given contents, at a location not in use. *)
Definition allocArray (h : heap) (contents : list ref) : loc * heap :=
  let a := fresh (dom (arrays h)) in
  (a, mkHeap (guideObjects h) (<[a := contents]> (arrays h))).

(** [a.splice(start, 1)] in place. *)
Definition spliceArray (h : heap) (a : loc) (start : Z) : heap :=
  mkHeap (guideObjects h) (alter (splice1 start) a (arrays h)).

(** [drawRandomTicket(guidesWithTickets)]: it reads the array and the
    guides' [ticketNumbers], and writes to its own [allAvailableTickets]
    only. *)
Definition drawRandomTicket (rnd : tape) (pos : nat) (guidesWithTickets : loc)
    (h : heap) : Draw * nat * heap :=
  let allAvailableTickets :=
    collectTickets (guideObjects h) (readArray h guidesWithTickets) in
  if decide (length allAvailableTickets = 0%nat)
  then (mkDraw None None, pos, h)
  else
    let randomIndex := random_index rnd pos (length allAvailableTickets) in
    let selectedTicket := allAvailableTickets !!! randomIndex in
    (mkDraw (Some (cand_guide selectedTicket)) (Some (cand_ticket selectedTicket)),
     S pos, h).

Record LoopState := mkLoopState {
  ls_winners : list ref;
  ls_drawnTickets : list Z;
  ls_pos : nat;
  ls_heap : heap
}.

Fixpoint draw_loop (rnd : tape) (availableGuides : loc) (n : nat) (st : LoopState)
    : LoopState :=
  match n with
  | O => st
  | S n' =>
      if decide (0 < length (readArray (ls_heap st) availableGuides))%nat
      then
        let '(d, pos', h1) :=
          drawRandomTicket rnd (ls_pos st) availableGuides (ls_heap st) in
        match winner d, drawnTicket d with
        | Some winnerGuide, Some t =>
            if truthy t
            then
              let index := indexOf (readArray h1 availableGuides) winnerGuide in
              let h2 := spliceArray h1 availableGuides index in
              draw_loop rnd availableGuides n'
                (mkLoopState (ls_winners st ++ [winnerGuide])
                   (ls_drawnTickets st ++ [t]) pos' h2)
            else
              draw_loop rnd availableGuides n'
                (mkLoopState (ls_winners st) (ls_drawnTickets st) pos' h1)
        | _, _ =>
            draw_loop rnd availableGuides n'
              (mkLoopState (ls_winners st) (ls_drawnTickets st) pos' h1)
        end
      else st
  end.

(** [drawRandomTickets(guidesWithTickets, count)]: the result, the position
    reached on the tape and the store it leaves. *)
Definition drawRandomTickets (rnd : tape) (pos : nat) (guidesWithTickets : loc)
    (count : Z) (h : heap) : Drawn * nat * heap :=
  let '(availableGuides, h1) := allocArray h (readArray h guidesWithTickets) in
  let st := draw_loop rnd availableGuides (Z.to_nat count) (mkLoopState [] [] pos h1) in
  (mkDrawn (ls_winners st) (ls_drawnTickets st), ls_pos st, ls_heap st).

End Store.

(** ** The reference Fisher–Yates shuffle

    Written after the specification: for index [i] from [N-1] down to 1,
    exchange element [i] with the element at a chosen index of [[0, i]].
    The choices are given as a list, the choice for [N-1] first. *)

(** The transposition of the indices [i] and [j]. *)
Definition transposition (i j k : nat) : nat :=
  if decide (k = i) then j else if decide (k = j) then i else k.

(** The list with the elements at [i] and [j] exchanged. *)
Definition exchange {A} (l : list A) (i j : nat) : list A :=
  imap (λ k x, default x (l !! transposition i j k)) l.

(** The successive lists, one per index from [i] down to 1. *)
Fixpoint reference_steps {A} (i : nat) (choices : list nat) (l : list A)
    : list (list A) :=
  match i, choices with
  | S i', j :: choices' =>
      let l' := exchange l i j in
      l' :: reference_steps i' choices' l'
  | _, _ => []
  end.

(** The list after the last step. *)
Fixpoint reference_run {A} (i : nat) (choices : list nat) (l : list A) : list A :=
  match i, choices with
  | S i', j :: choices' => reference_run i' choices' (exchange l i j)
  | _, _ => l
  end.

Definition reference_shuffle {A} (choices : list nat) (l : list A) : list A :=
  reference_run (length l - 1) choices l.

(** The choices the allocator's loop reads from the tape for an array of
    length [n], starting at position [pos]: the iteration number [k]
    handles the index [i = n - 1 - k] and draws below [i + 1 = n - k]. *)
Definition tape_choices (rnd : tape) (pos n : nat) : list nat :=
  (λ k, random_index rnd (pos + k) (n - k)) <$> seq 0 (n - 1).

(** ** Auxiliary definitions used in the proofs *)

(** The distribution loop of [assignTicketsToGuides] in closed form: each
    guide receives the sorted slice of the shuffled array that starts at
    the cursor. *)
Fixpoint assigned (allTickets : list Z) (ticketIndex : nat) (guides : list Guide)
    : list GuideWithTickets :=
  match guides with
  | [] => []
  | g :: gs =>
      let n := Z.to_nat (totalTickets g) in
      let ticketNumbers := sortTickets (take n (drop ticketIndex allTickets)) in
      mkGuideWithTickets g ticketNumbers (rangeOf ticketNumbers)
        :: assigned allTickets (Nat.min (ticketIndex + n) (length allTickets)) gs
  end.

(** The number of tickets the guides ask for, negative counts read as 0. *)
Definition requested (guides : list Guide) : nat :=
  sum_list ((λ g, Z.to_nat (totalTickets g)) <$> guides).

(** All the ticket numbers of an allocation, in the order of the guides. *)
Definition issuedTickets (out : list GuideWithTickets) : list Z :=
  mjoin (ticketNumbers <$> out).

(** The entries of [allAvailableTickets] that come from one guide. *)
Definition candidatesOf (objs : objects) (g : ref) : list Candidate :=
  (λ t, mkCandidate t g) <$> ticketNumbers (objs g).

(** A guide that holds at least one ticket. *)
Definition holdsTicket (objs : objects) (g : ref) : Prop :=
  ticketNumbers (objs g) ≠ [].

#[global] Instance holdsTicket_dec objs g : Decision (holdsTicket objs g).
Proof. unfold holdsTicket. apply _. Defined.

(** The entries of a pool that hold at least one ticket. *)
Definition holders (objs : objects) (pool : list ref) : list ref :=
  filter (holdsTicket objs) pool.

(** The distinct participants of a pool, and those that hold a ticket. *)
Definition distinctParticipants (objs : objects) (pool : list ref) : gset Z :=
  list_to_set (participant objs <$> pool).

Definition distinctHolders (objs : objects) (pool : list ref) : gset Z :=
  list_to_set (participant objs <$> holders objs pool).

(** No ticket of the pool is the number 0 (the allocator issues 1, 2, ...). *)
Definition ticketsNonzero (objs : objects) (pool : list ref) : Prop :=
  Forall (λ g, Forall (λ t, t ≠ 0) (ticketNumbers (objs g))) pool.

(** The winner that [drawRandomTicket] returns when the index drawn is [r]. *)
Definition winnerAt (objs : objects) (pool : list ref) (r : nat) : option ref :=
  winner (drawRandomTicket (λ _, r) objs 0 pool).1.

(** ** Sample inputs *)

Definition sampleTape : tape := λ k, (7 * k + 3)%nat.

Definition sampleGuide (i t : Z) : Guide :=
  mkGuide i "guide" "supervisor" "department" (Qmake 0 1) (Qmake 0 1) (Qmake 0 1) t.

(** The objects of an allocation, referred to by their index in the
    array [assignTicketsToGuides] returns. *)
#[global] Instance GuideWithTickets_inhabited : Inhabited GuideWithTickets :=
  populate (mkGuideWithTickets (sampleGuide 0 0) [] (mkTicketRange 0 0)).

Definition objectsOf (out : list GuideWithTickets) : objects := λ r, out !!! r.

(** A roster that lists guide 1 twice, and the objects the allocator builds
    from it: two objects of participant 1, with the tickets 1 and 2. *)
Definition twinRoster : list Guide := [sampleGuide 1 1; sampleGuide 1 1].

Definition twinObjects : objects :=
  objectsOf (assignTicketsToGuides sampleTape 0 twinRoster).1.

(** A pool of one participant without tickets. *)
Definition idleObjects : objects :=
  objectsOf (assignTicketsToGuides sampleTape 0 [sampleGuide 1 0]).1.

(** A pool of two participants, with 3 and 2 tickets. *)
Definition sampleRoster : list Guide := [sampleGuide 1 3; sampleGuide 2 2].

Definition sampleObjects : objects :=
  objectsOf (assignTicketsToGuides sampleTape 0 sampleRoster).1.

(** ** Ticket lookup: [findGuideByTicket] *)

(** [a.includes(x)] on an array of numbers. *)
Definition includes (a : list Z) (x : Z) : bool := existsb (Z.eqb x) a.

(** [guidesWithTickets.find(guide => guide.ticketNumbers.includes(ticketNumber))
     || null] *)
Definition findGuideByTicket (objs : objects) (ticketNumber : Z)
    (guidesWithTickets : list ref) : option ref :=
  List.find (λ g, includes (ticketNumbers (objs g)) ticketNumber) guidesWithTickets.

(** The pool made of the objects of an allocation: the references
    0, 1, ... to the elements of the array. *)
Definition poolOf (out : list GuideWithTickets) : list ref := seq 0 (length out).

(** ** The animated draw: [drawSingleTicket]
    (components/TicketDrawAnimation.tsx)

    The component keeps [availableGuides], [allWinners], [allDrawnTickets]
    and [animationPhase] in its state. [drawSingleTicket] draws from the
    value of [availableGuides] that it reads; its updates of the state are
    functions of the state they find ([prev => ...]). *)

Inductive AnimationPhase := Countdown | Drawing | Revealing | Waiting | Complete.

Record DrawSession := mkDrawSession {
  availableGuides : list ref;
  allWinners : list ref;
  allDrawnTickets : list Z;
  animationPhase : AnimationPhase
}.

(** [prev.filter(g => g.id !== winner.id)] *)
Definition evictById (objs : objects) (winnerGuide : ref) (prev : list ref)
    : list ref :=
  filter (λ g, participant objs g ≠ participant objs winnerGuide) prev.

(** The state after [drawSingleTicket], when it reads the list [seen] as
    [availableGuides] and the tape at [pos]:
    [if (winner && drawnTicket) { ... setAnimationPhase('revealing') }
     else completeDrawing()]. *)
Definition drawSingleTicket (rnd : tape) (objs : objects) (pos : nat)
    (seen : list ref) (s : DrawSession) : DrawSession :=
  let d := (drawRandomTicket rnd objs pos seen).1 in
  match winner d, drawnTicket d with
  | Some winnerGuide, Some t =>
      if truthy t
      then mkDrawSession (evictById objs winnerGuide (availableGuides s))
             (allWinners s ++ [winnerGuide]) (allDrawnTickets s ++ [t]) Revealing
      else mkDrawSession (availableGuides s) (allWinners s) (allDrawnTickets s)
             Complete
  | _, _ =>
      mkDrawSession (availableGuides s) (allWinners s) (allDrawnTickets s) Complete
  end.

(** ** The range-based draw: [drawTickets]
    (components/TicketDrawAnimation.tsx, the version that numbers the
    tickets of a guide from [startTicket])

    Of a guide the function reads [id], [startTicket] and [totalTickets].
    The tape entry [rnd i] stands for the call of [Math.random()] that
    selects the ticket in the iteration [i]. *)

Record RangeGuide := mkRangeGuide {
  rg_id : Z;
  startTicket : Z;
  rg_totalTickets : Z
}.

(** [ticket >= guide.startTicket &&
     ticket < guide.startTicket + guide.totalTickets] *)
Definition inRange (g : RangeGuide) (ticket : Z) : bool :=
  (startTicket g <=? ticket) && (ticket <? startTicket g + rg_totalTickets g).

(** [guides.forEach(guide => { for (let i = 0; i < guide.totalTickets; i++)
       allTickets.push(guide.startTicket + i) })] *)
Definition buildTicketPool (guides : list RangeGuide) : list Z :=
  fold_left
    (λ acc g,
       fold_left (λ acc' (i : nat), acc' ++ [startTicket g + Z.of_nat i])
         (seq 0 (Z.to_nat (rg_totalTickets g))) acc)
    guides [].

(** [for (let j = allTickets.length - 1; j >= 0; j--)
       if (inRange(winner, allTickets[j])) allTickets.splice(j, 1)]
    with [n] the number of indices left to visit: the next one is [n - 1]. *)
Fixpoint removeTickets (w : RangeGuide) (n : nat) (allTickets : list Z) : list Z :=
  match n with
  | O => allTickets
  | S j =>
      if inRange w (allTickets !!! j)
      then removeTickets w j (delete j allTickets)
      else removeTickets w j allTickets
  end.

Record RangeDraw := mkRangeDraw {
  rd_allTickets : list Z;
  rd_winners : list RangeGuide;
  rd_tickets : list Z
}.

(** [for (let i = 0; i < winnerCount && allTickets.length > 0; i++) { ... }]
    with [n] the number of values of [i] left and [i] the current one. *)
Fixpoint drawTickets_loop (rnd : tape) (guides : list RangeGuide) (n i : nat)
    (st : RangeDraw) : RangeDraw :=
  match n with
  | O => st
  | S n' =>
      let allTickets := rd_allTickets st in
      if decide (0 < length allTickets)%nat
      then
        let randomIndex := random_index rnd i (length allTickets) in
        let drawn := allTickets !!! randomIndex in
        match List.find (λ g, inRange g drawn) guides with
        | Some w =>
            match List.find (λ w', bool_decide (rg_id w' = rg_id w)) (rd_winners st) with
            | None =>
                drawTickets_loop rnd guides n' (S i)
                  (mkRangeDraw (removeTickets w (length allTickets) allTickets)
                     (rd_winners st ++ [w]) (rd_tickets st ++ [drawn]))
            | Some _ => drawTickets_loop rnd guides n' (S i) st
            end
        | None => drawTickets_loop rnd guides n' (S i) st
        end
      else st
  end.

(** [drawTickets]: the winners and tickets handed to [onComplete]
    ([onComplete([], [], false)] when there is no ticket at all). *)
Definition drawTickets (rnd : tape) (guides : list RangeGuide) (winnerCount : Z)
    : list RangeGuide * list Z :=
  let allTickets := buildTicketPool guides in
  if decide (length allTickets = 0%nat)
  then ([], [])
  else
    let st := drawTickets_loop rnd guides (Z.to_nat winnerCount) 0
                (mkRangeDraw allTickets [] []) in
    (rd_winners st, rd_tickets st).

(** What the loop of [drawTickets] keeps true of its state: the winners
    have pairwise different ids, the tickets are pairwise different, each
    ticket lies in the range of the winner recorded with it, the winners are
    guides of the list, and no ticket left lies in the range of a winner. *)
Definition rangeDraw_ok (guides : list RangeGuide) (st : RangeDraw) : Prop :=
  NoDup (rg_id <$> rd_winners st)
  ∧ NoDup (rd_tickets st)
  ∧ Forall2 (λ w t, inRange w t = true) (rd_winners st) (rd_tickets st)
  ∧ Forall (λ w, w ∈ guides) (rd_winners st)
  ∧ (∀ t w, t ∈ rd_allTickets st → w ∈ rd_winners st → inRange w t = false).

(** * Properties *)

(** ** The random source *)

Lemma random_index_lt rnd pos n : n ≠ 0%nat → (random_index rnd pos n < n)%nat.
Proof. intros Hn. unfold random_index. by apply Nat.mod_upper_bound. Qed.

(** Every index below [n] is the outcome of some tape entry. *)
Lemma random_index_onto rnd pos n k :
  (k < n)%nat → rnd pos = k → random_index rnd pos n = k.
Proof. intros Hk <-. unfold random_index. by apply Nat.mod_small. Qed.

(** ** The reference shuffle *)

Section reference_facts.
Context {A : Type}.
Implicit Types (l : list A) (i j k m : nat) (js : list nat).

Lemma transposition_inj i j : Inj (=) (=) (transposition i j).
Proof. intros k1 k2. unfold transposition. repeat case_decide; lia. Qed.

Lemma exchange_length l i j : length (exchange l i j) = length l.
Proof. unfold exchange. apply length_imap. Qed.

Lemma exchange_lookup l i j k :
  (i < length l)%nat → (j < length l)%nat →
  exchange l i j !! k = l !! transposition i j k.
Proof.
  intros Hi Hj. unfold exchange. rewrite list_lookup_imap.
  destruct (l !! k) as [x|] eqn:Hk; simpl.
  - assert (transposition i j k < length l)%nat as Ht.
    { apply lookup_lt_Some in Hk. unfold transposition. repeat case_decide; lia. }
    destruct (lookup_lt_is_Some_2 _ _ Ht) as [y Hy]. by rewrite Hy.
  - apply lookup_ge_None in Hk. symmetry. apply lookup_ge_None.
    unfold transposition. repeat case_decide; lia.
Qed.

Lemma exchange_Permutation l i j :
  (i < length l)%nat → (j < length l)%nat → exchange l i j ≡ₚ l.
Proof.
  intros Hi Hj. apply Permutation_inj. split; [apply exchange_length|].
  exists (transposition i j). split; [apply transposition_inj|].
  intros k. by apply exchange_lookup.
Qed.

(** The steps for the indices [i] down to 1 leave the elements above [i]
    where they are. *)
Lemma reference_run_above i js l m :
  (∀ k j, js !! k = Some j → (j ≤ i - k)%nat) →
  (i < length l)%nat → (i < m)%nat →
  reference_run i js l !! m = l !! m.
Proof.
  revert js l. induction i as [|i IH]; intros js l Hjs Hi Hm; [done|].
  destruct js as [|j js]; [done|]. cbn [reference_run].
  pose proof (Hjs 0%nat j eq_refl) as Hj. simpl in Hj.
  rewrite IH.
  - rewrite exchange_lookup by lia. f_equal.
    unfold transposition. repeat case_decide; lia.
  - intros k j' Hk. specialize (Hjs (S k) j' Hk). simpl in Hjs. lia.
  - rewrite exchange_length. lia.
  - lia.
Qed.

(** Two vectors of choices that give the same list are the same vector:
    the shuffle reaches each arrangement by one vector of choices only. *)
Lemma reference_run_injective i js js' l :
  NoDup l → (i < length l)%nat →
  length js = i → (∀ k j, js !! k = Some j → (j ≤ i - k)%nat) →
  length js' = i → (∀ k j, js' !! k = Some j → (j ≤ i - k)%nat) →
  reference_run i js l = reference_run i js' l → js = js'.
Proof.
  revert js js' l. induction i as [|i IH]; intros js js' l Hnd Hi Hlen Hjs Hlen' Hjs' Heq.
  - destruct js, js'; (done || discriminate).
  - destruct js as [|j js]; [discriminate|]. destruct js' as [|j' js']; [discriminate|].
    cbn [reference_run] in Heq.
    pose proof (Hjs 0%nat j eq_refl) as Hj. pose proof (Hjs' 0%nat j' eq_refl) as Hj'.
    simpl in Hj, Hj'.
    assert (∀ k x, js !! k = Some x → (x ≤ i - k)%nat) as Ht.
    { intros k x Hk. specialize (Hjs (S k) x Hk). simpl in Hjs. lia. }
    assert (∀ k x, js' !! k = Some x → (x ≤ i - k)%nat) as Ht'.
    { intros k x Hk. specialize (Hjs' (S k) x Hk). simpl in Hjs'. lia. }
    assert (j = j') as <-.
    { pose proof (f_equal (λ r, r !! S i) Heq) as Hat. simpl in Hat.
      rewrite !reference_run_above in Hat
        by (done || rewrite ?exchange_length; lia).
      rewrite !exchange_lookup in Hat by lia.
      unfold transposition in Hat. rewrite !decide_True in Hat by done.
      destruct (lookup_lt_is_Some_2 l j) as [x Hx]; [lia|].
      rewrite Hx in Hat. symmetry in Hat.
      eapply NoDup_lookup; eauto. }
    f_equal. apply (IH js js' (exchange l (S i) j)); try done.
    + rewrite exchange_Permutation by lia. done.
    + rewrite exchange_length. lia.
    + simpl in Hlen. lia.
    + simpl in Hlen'. lia.
Qed.

End reference_facts.

(** ** The shuffle *)

Section shuffle_facts.
Implicit Types (a : list Z) (i j k : nat).

Lemma swap_length a i j : length (swap a i j) = length a.
Proof. unfold swap. by rewrite !length_insert. Qed.

Lemma swap_lookup a i j k :
  (i < length a)%nat → (j < length a)%nat →
  swap a i j !! k = a !! transposition i j k.
Proof.
  intros Hi Hj. unfold swap, transposition.
  rewrite !list_lookup_insert, length_insert.
  rewrite <- (list_lookup_lookup_total_lt a i) by done.
  rewrite <- (list_lookup_lookup_total_lt a j) by done.
  repeat case_decide; try done; destruct_and?; subst; try done; lia.
Qed.

Lemma swap_exchange a i j :
  (i < length a)%nat → (j < length a)%nat → swap a i j = exchange a i j.
Proof.
  intros Hi Hj. apply list_eq; intros k.
  by rewrite swap_lookup, exchange_lookup.
Qed.

Lemma swap_Permutation a i j :
  (i < length a)%nat → (j < length a)%nat → swap a i j ≡ₚ a.
Proof.
  intros Hi Hj. apply Permutation_inj. split; [apply swap_length|].
  exists (transposition i j). split; [apply transposition_inj|].
  intros k. by apply swap_lookup.
Qed.

Lemma shuffle_loop_spec rnd i pos a :
  (i < length a)%nat ∨ (i = 0)%nat →
  (shuffle_loop rnd i pos a).1 ≡ₚ a ∧ (shuffle_loop rnd i pos a).2 = (pos + i)%nat.
Proof.
  revert pos a. induction i as [|i IH]; intros pos a Hi; cbn [shuffle_loop].
  - split; [done|simpl; lia].
  - assert (S i < length a)%nat as Hlt by lia.
    pose proof (random_index_lt rnd pos (S i + 1) ltac:(lia)) as Hj.
    destruct (IH (S pos) (swap a (S i) (random_index rnd pos (S i + 1)))) as [IH1 IH2].
    { rewrite swap_length. lia. }
    split; [|rewrite IH2; lia]. rewrite IH1. apply swap_Permutation; lia.
Qed.

Lemma shuffleTickets_Permutation rnd pos a : (shuffleTickets rnd pos a).1 ≡ₚ a.
Proof. apply shuffle_loop_spec. destruct a; simpl; lia. Qed.

Lemma shuffleTickets_pos rnd pos a :
  (shuffleTickets rnd pos a).2 = (pos + (length a - 1))%nat.
Proof. apply shuffle_loop_spec. destruct a; simpl; lia. Qed.

End shuffle_facts.

(** ** The distribution of the shuffled tickets *)

Lemma ticketSequence_seqZ total : ticketSequence total = seqZ 1 total.
Proof. reflexivity. Qed.

Lemma ticketSequence_length total : length (ticketSequence total) = Z.to_nat total.
Proof. unfold ticketSequence. by rewrite length_fmap, length_seq. Qed.

Lemma ticketSequence_NoDup total : NoDup (ticketSequence total).
Proof. rewrite ticketSequence_seqZ. apply NoDup_seqZ. Qed.

Lemma ticketSequence_elem total t : t ∈ ticketSequence total ↔ 1 ≤ t ≤ total.
Proof. rewrite ticketSequence_seqZ, elem_of_seqZ. lia. Qed.

Lemma sumTotalTickets_fold guides z :
  fold_left (λ sum g, sum + totalTickets g) guides z = z + sumTotalTickets guides.
Proof.
  unfold sumTotalTickets. revert z.
  induction guides as [|g gs IH]; intros z; cbn [fold_left]; [lia|].
  rewrite (IH (z + _)), (IH (0 + _)). lia.
Qed.

Lemma sumTotalTickets_cons g gs :
  sumTotalTickets (g :: gs) = totalTickets g + sumTotalTickets gs.
Proof. unfold sumTotalTickets at 1. simpl. by rewrite sumTotalTickets_fold. Qed.

Lemma requested_cons g gs :
  requested (g :: gs) = (Z.to_nat (totalTickets g) + requested gs)%nat.
Proof. reflexivity. Qed.

Lemma requested_nonneg guides :
  Forall (λ g, 0 ≤ totalTickets g) guides →
  Z.of_nat (requested guides) = sumTotalTickets guides.
Proof.
  induction 1 as [|g gs Hg _ IH]; [done|].
  rewrite sumTotalTickets_cons, requested_cons. lia.
Qed.

Lemma takeTickets_spec n allTickets ticketIndex acc :
  (ticketIndex ≤ length allTickets)%nat →
  takeTickets n allTickets ticketIndex acc
  = (acc ++ take n (drop ticketIndex allTickets),
     Nat.min (ticketIndex + n) (length allTickets)).
Proof.
  revert ticketIndex acc. induction n as [|n IH]; intros idx acc Hidx; simpl.
  - rewrite take_0, app_nil_r. f_equal. lia.
  - case_decide as Hlt.
    + rewrite IH by lia.
      rewrite (drop_S allTickets (allTickets !!! idx) idx)
        by by apply list_lookup_lookup_total_lt.
      f_equal; [|lia]. by rewrite <- app_assoc.
    + rewrite IH by lia. rewrite drop_ge by lia.
      f_equal; [by rewrite !take_nil|lia].
Qed.

Lemma sortTickets_Permutation l : sortTickets l ≡ₚ l.
Proof. apply merge_sort_Permutation. Qed.

Lemma sortTickets_length l : length (sortTickets l) = length l.
Proof. by rewrite sortTickets_Permutation. Qed.

Lemma sortTickets_nil : sortTickets [] = [].
Proof. reflexivity. Qed.

Lemma fold_assignGuide allTickets guides ticketIndex out :
  (ticketIndex ≤ length allTickets)%nat →
  (fold_left (assignGuide allTickets) guides (ticketIndex, out)).2
  = out ++ assigned allTickets ticketIndex guides.
Proof.
  revert ticketIndex out. induction guides as [|g gs IH]; intros idx out Hidx; simpl.
  - by rewrite app_nil_r.
  - rewrite takeTickets_spec by done. simpl.
    rewrite IH by lia. by rewrite <- app_assoc.
Qed.

Lemma assigned_guides allTickets ticketIndex guides :
  guide <$> assigned allTickets ticketIndex guides = guides.
Proof.
  revert ticketIndex. induction guides as [|g gs IH]; intros idx; simpl; [done|].
  by rewrite IH.
Qed.

Lemma assigned_issued allTickets ticketIndex guides :
  issuedTickets (assigned allTickets ticketIndex guides)
  ≡ₚ take (requested guides) (drop ticketIndex allTickets).
Proof.
  unfold issuedTickets.
  revert ticketIndex. induction guides as [|g gs IH]; intros idx.
  - done.
  - rewrite requested_cons. cbn [assigned fmap list_fmap mjoin list_join ticketNumbers].
    rewrite IH, sortTickets_Permutation.
    rewrite <- take_take_drop, drop_drop. f_equiv.
    destruct (decide (idx + Z.to_nat (totalTickets g) ≤ length allTickets)%nat).
    + by rewrite Nat.min_l by lia.
    + rewrite !drop_ge; [done|lia..].
Qed.

Lemma assigned_counts allTickets ticketIndex guides :
  (ticketIndex + requested guides ≤ length allTickets)%nat →
  Forall (λ o, length (ticketNumbers o) = Z.to_nat (totalTickets (guide o)))
    (assigned allTickets ticketIndex guides).
Proof.
  revert ticketIndex. induction guides as [|g gs IH]; intros idx Hle.
  - constructor.
  - rewrite requested_cons in Hle. constructor; simpl.
    + rewrite sortTickets_length, length_take, length_drop. lia.
    + apply IH. lia.
Qed.

Lemma assigned_nonpositive allTickets ticketIndex guides :
  Forall (λ o, totalTickets (guide o) ≤ 0 →
               ticketNumbers o = [] ∧ ticketRange o = mkTicketRange 0 0)
    (assigned allTickets ticketIndex guides).
Proof.
  revert ticketIndex. induction guides as [|g gs IH]; intros idx; simpl.
  - constructor.
  - constructor; [|apply IH]. simpl. intros Hle.
    replace (Z.to_nat (totalTickets g)) with 0%nat by lia.
    by rewrite take_0.
Qed.

Lemma NoDup_join_disjoint {A} (ls : list (list A)) i j a b x :
  NoDup (mjoin ls) → i ≠ j → ls !! i = Some a → ls !! j = Some b →
  x ∈ a → x ∉ b.
Proof.
  revert i j. induction ls as [|l ls IH]; intros i j Hnd Hij Hi Hj Ha Hb; [done|].
  simpl in Hnd. apply NoDup_app in Hnd as (_ & Hdisj & Hnd).
  destruct i as [|i], j as [|j]; simpl in *; simplify_eq.
  - apply (Hdisj x Ha). apply list_elem_of_join. exists b. split; [done|].
    by eapply list_elem_of_lookup_2.
  - apply (Hdisj x Hb). apply list_elem_of_join. exists a. split; [done|].
    by eapply list_elem_of_lookup_2.
  - eapply (IH i j); eauto.
Qed.

(** ** Refinement of the reference shuffle *)

Lemma tape_choices_S rnd pos i :
  tape_choices rnd pos (S (S i))
  = random_index rnd pos (S i + 1) :: tape_choices rnd (S pos) (S i).
Proof.
  unfold tape_choices.
  replace (S (S i) - 1)%nat with (S i) by lia.
  replace (S i - 1)%nat with i by lia.
  cbn [seq fmap list_fmap]. f_equal.
  - f_equal; lia.
  - rewrite <- fmap_S_seq, <- list_fmap_compose.
    apply list_fmap_ext. intros k x _. simpl. f_equal; lia.
Qed.

Lemma shuffle_trace_reference rnd i pos a :
  (i < length a)%nat →
  shuffle_trace rnd i pos a = reference_steps i (tape_choices rnd pos (S i)) a.
Proof.
  revert pos a. induction i as [|i IH]; intros pos a Hlen; [done|].
  rewrite tape_choices_S. cbn [shuffle_trace reference_steps].
  pose proof (random_index_lt rnd pos (S i + 1) ltac:(lia)) as Hj.
  rewrite <- swap_exchange by lia.
  f_equal. apply IH. rewrite swap_length. lia.
Qed.

Lemma shuffle_loop_reference rnd i pos a :
  (i < length a)%nat →
  (shuffle_loop rnd i pos a).1 = reference_run i (tape_choices rnd pos (S i)) a.
Proof.
  revert pos a. induction i as [|i IH]; intros pos a Hlen; [done|].
  rewrite tape_choices_S. cbn [shuffle_loop reference_run].
  pose proof (random_index_lt rnd pos (S i + 1) ltac:(lia)) as Hj.
  rewrite <- swap_exchange by lia.
  apply IH. rewrite swap_length. lia.
Qed.

Lemma tape_choices_length rnd pos n : length (tape_choices rnd pos n) = (n - 1)%nat.
Proof. unfold tape_choices. by rewrite length_fmap, length_seq. Qed.

Lemma tape_choices_range rnd pos n k j :
  tape_choices rnd pos n !! k = Some j → (j ≤ n - 1 - k)%nat.
Proof.
  unfold tape_choices. rewrite list_lookup_fmap. intros Hk.
  apply fmap_Some in Hk as (k' & Hk' & ->). apply lookup_seq in Hk' as [-> Hlt].
  pose proof (random_index_lt rnd (pos + k) (n - k) ltac:(lia)). simpl. lia.
Qed.

(** Every vector of in-range choices is read from some tape. *)
Lemma tape_choices_complete pos n (js : list nat) :
  length js = (n - 1)%nat →
  (∀ k j, js !! k = Some j → (j ≤ n - 1 - k)%nat) →
  ∃ rnd, tape_choices rnd pos n = js.
Proof.
  intros Hlen Hrange. exists (λ p, js !!! (p - pos)%nat).
  apply list_eq; intros k. unfold tape_choices. rewrite list_lookup_fmap.
  destruct (decide (k < n - 1)%nat) as [Hk|Hk].
  - rewrite lookup_seq_lt by done. simpl. unfold random_index.
    replace (pos + k - pos)%nat with k by lia.
    destruct (lookup_lt_is_Some_2 js k) as [j Hj]; [lia|].
    rewrite (list_lookup_total_correct _ _ _ Hj), Hj. f_equal.
    apply Nat.mod_small. specialize (Hrange _ _ Hj). lia.
  - rewrite lookup_seq_ge by lia. symmetry. apply lookup_ge_None. lia.
Qed.

Lemma assignTicketsToGuides_assigned rnd pos guides :
  (assignTicketsToGuides rnd pos guides).1
  = assigned (shuffleTickets rnd pos (ticketSequence (sumTotalTickets guides))).1
      0 guides.
Proof.
  unfold assignTicketsToGuides.
  destruct (shuffleTickets _ _ _) as [shuffled pos'] eqn:Hs. simpl.
  rewrite fold_assignGuide by lia. done.
Qed.

Lemma assignTicketsToGuides_pos rnd pos guides :
  (assignTicketsToGuides rnd pos guides).2
  = (shuffleTickets rnd pos (ticketSequence (sumTotalTickets guides))).2.
Proof.
  unfold assignTicketsToGuides. by destruct (shuffleTickets _ _ _).
Qed.

(** C6. The loop that shuffles [[1..N]] in [assignTicketsToGuides] is the
    reference Fisher–Yates shuffle: driven by the choices read from the
    tape, it goes through the same arrays step by step and ends with the
    same array; there is one step per index from [N-1] down to 1, the choice
    made for the index [i] lies in [[0, i]], every vector of such choices is
    read from some tape, two different vectors of choices give two different
    arrangements, and the guides receive their tickets from the reference
    shuffle of [[1..N]]. *)
Theorem shuffle_refines_fisher_yates rnd pos guides :
  let a := ticketSequence (sumTotalTickets guides) in
  let n := length a in
  let choices := tape_choices rnd pos n in
  shuffle_trace rnd (n - 1) pos a = reference_steps (n - 1) choices a
  ∧ (shuffleTickets rnd pos a).1 = reference_shuffle choices a
  ∧ length choices = (n - 1)%nat
  ∧ (∀ k j, choices !! k = Some j → (j ≤ n - 1 - k)%nat)
  ∧ (∀ js, length js = (n - 1)%nat →
       (∀ k j, js !! k = Some j → (j ≤ n - 1 - k)%nat) →
       ∃ rnd', tape_choices rnd' pos n = js)
  ∧ (∀ js js', length js = (n - 1)%nat →
       (∀ k j, js !! k = Some j → (j ≤ n - 1 - k)%nat) →
       length js' = (n - 1)%nat →
       (∀ k j, js' !! k = Some j → (j ≤ n - 1 - k)%nat) →
       reference_shuffle js a = reference_shuffle js' a → js = js')
  ∧ assignTicketsToGuides rnd pos guides
    = ((fold_left (assignGuide (reference_shuffle choices a)) guides (0%nat, [])).2,
       (pos + (n - 1))%nat).
Proof.
  intros a n choices.
  assert ((shuffleTickets rnd pos a).1 = reference_shuffle choices a) as Hrun.
  { unfold shuffleTickets, reference_shuffle, choices. fold n.
    destruct n as [|i] eqn:Hn; [by destruct a|].
    replace (S i - 1)%nat with i by lia. apply shuffle_loop_reference. lia. }
  split_and!.
  - unfold choices. destruct n as [|i] eqn:Hn; [done|].
    replace (S i - 1)%nat with i by lia. apply shuffle_trace_reference. lia.
  - done.
  - apply tape_choices_length.
  - apply tape_choices_range.
  - apply tape_choices_complete.
  - intros js js' Hlen Hjs Hlen' Hjs'. unfold reference_shuffle. fold n.
    destruct (decide (n = 0)%nat) as [Hn|Hn].
    + intros _. rewrite Hn in Hlen, Hlen'. by destruct js, js'.
    + apply reference_run_injective; try done; [apply ticketSequence_NoDup|].
      fold n. lia.
  - rewrite <- Hrun. unfold assignTicketsToGuides. fold a.
    pose proof (shuffleTickets_pos rnd pos a) as Hpos. fold n in Hpos.
    destruct (shuffleTickets rnd pos a) as [shuffled pos']. simpl in *.
    by rewrite Hpos.
Qed.

(** ** The allocation *)

(** C2. For guides with non-negative ticket counts, [assignTicketsToGuides]
    returns one output per guide, in order; each output holds exactly
    [totalTickets] numbers; the numbers issued are a rearrangement of
    [[1..N]], [N] the sum of the counts: none is repeated, they are exactly
    the integers from 1 to [N], and two different outputs share none. *)
Theorem assignTicketsToGuides_partition rnd pos guides :
  Forall (λ g, 0 ≤ totalTickets g) guides →
  let out := (assignTicketsToGuides rnd pos guides).1 in
  let N := sumTotalTickets guides in
  guide <$> out = guides
  ∧ Forall (λ o, Z.of_nat (length (ticketNumbers o)) = totalTickets (guide o)) out
  ∧ issuedTickets out ≡ₚ ticketSequence N
  ∧ NoDup (issuedTickets out)
  ∧ (∀ t, t ∈ issuedTickets out ↔ 1 ≤ t ≤ N)
  ∧ (∀ i j a b t, i ≠ j → out !! i = Some a → out !! j = Some b →
       t ∈ ticketNumbers a → t ∉ ticketNumbers b).
Proof.
  intros Hnonneg out N.
  pose proof (requested_nonneg guides Hnonneg) as Hreq.
  set (shuffled := (shuffleTickets rnd pos (ticketSequence N)).1).
  assert (shuffled ≡ₚ ticketSequence N) as Hperm by apply shuffleTickets_Permutation.
  assert (length shuffled = requested guides) as Hlen.
  { rewrite Hperm, ticketSequence_length. fold N in Hreq. lia. }
  assert (out = assigned shuffled 0 guides) as Hout
    by apply assignTicketsToGuides_assigned.
  assert (issuedTickets out ≡ₚ ticketSequence N) as Hissued.
  { rewrite Hout, assigned_issued, drop_0, take_ge by lia. done. }
  assert (NoDup (issuedTickets out)) as Hnd.
  { rewrite Hissued. apply ticketSequence_NoDup. }
  split_and!.
  - rewrite Hout. apply assigned_guides.
  - assert (Forall (λ g, 0 ≤ totalTickets g) (guide <$> out)) as Hnn.
    { rewrite Hout, assigned_guides. done. }
    rewrite Forall_fmap in Hnn.
    pose proof (assigned_counts shuffled 0 guides ltac:(lia)) as Hc.
    rewrite <- Hout in Hc.
    rewrite Forall_forall in Hnn, Hc. apply Forall_forall. intros o Ho.
    specialize (Hnn o Ho). specialize (Hc o Ho). simpl in Hnn, Hc.
    rewrite Hc. apply Z2Nat.id, Hnn.
  - done.
  - done.
  - intros t. rewrite Hissued. apply ticketSequence_elem.
  - intros i j a b t Hij Hi Hj. unfold issuedTickets in Hnd.
    eapply (NoDup_join_disjoint _ i j); [done..| |].
    + by rewrite list_lookup_fmap, Hi.
    + by rewrite list_lookup_fmap, Hj.
Qed.

(** The roster with 3 and 2 tickets: its five tickets are shared out as
    the theorem says. *)
Lemma assignTicketsToGuides_partition_witness :
  let out := (assignTicketsToGuides sampleTape 0 sampleRoster).1 in
  let N := sumTotalTickets sampleRoster in
  guide <$> out = sampleRoster
  ∧ Forall (λ o, Z.of_nat (length (ticketNumbers o)) = totalTickets (guide o)) out
  ∧ issuedTickets out ≡ₚ ticketSequence N
  ∧ NoDup (issuedTickets out)
  ∧ (∀ t, t ∈ issuedTickets out ↔ 1 ≤ t ≤ N)
  ∧ (∀ i j a b t, i ≠ j → out !! i = Some a → out !! j = Some b →
       t ∈ ticketNumbers a → t ∉ ticketNumbers b).
Proof.
  apply (assignTicketsToGuides_partition sampleTape 0 sampleRoster).
  repeat constructor; simpl; lia.
Defined.

(** C7 (amended). [assignTicketsToGuides] completes normally on every list
    of guides: it returns one output per guide, in order, and a guide with a
    negative ticket count receives no ticket number and the range 0 to 0. *)
Theorem allocate_never_fails rnd pos guides :
  ∃ out, allocate rnd pos guides = Normal out
         ∧ guide <$> out = guides
         ∧ Forall (λ o, totalTickets (guide o) < 0 →
                        ticketNumbers o = [] ∧ ticketRange o = mkTicketRange 0 0) out.
Proof.
  eexists. split; [reflexivity|]. rewrite assignTicketsToGuides_assigned. split.
  - apply assigned_guides.
  - eapply Forall_impl; [apply assigned_nonpositive|]. simpl. intros o Ho Hneg.
    apply Ho. lia.
Qed.

(** With the counts 3 and -1 the call raises nothing: it returns the ticket
    lists [[1; 2]] and [[]]. *)
Lemma allocate_negative_count_counterexample :
  let guides := [sampleGuide 1 3; sampleGuide 2 (-1)] in
  Exists (λ g, totalTickets g < 0) guides
  ∧ allocate sampleTape 0 guides ≠ Throw InvalidInputError
  ∧ ticketNumbers <$> (assignTicketsToGuides sampleTape 0 guides).1 = [[1; 2]; []].
Proof.
  split_and!.
  - apply Exists_cons_tl, Exists_cons_hd. simpl. lia.
  - discriminate.
  - vm_compute. reflexivity.
Qed.

(** ** The candidate list of a draw *)

Lemma push_candidates g (ts : list Z) (acc : list Candidate) :
  fold_left (λ acc' t, acc' ++ [mkCandidate t g]) ts acc
  = acc ++ ((λ t, mkCandidate t g) <$> ts).
Proof.
  revert acc. induction ts as [|t ts IH]; intros acc; simpl.
  - by rewrite app_nil_r.
  - rewrite IH, <- app_assoc. done.
Qed.

Lemma collectTickets_from objs (gs : list ref) (acc : list Candidate) :
  fold_left
    (λ acc g,
       fold_left (λ acc' t, acc' ++ [mkCandidate t g]) (ticketNumbers (objs g)) acc)
    gs acc
  = acc ++ (gs ≫= candidatesOf objs).
Proof.
  revert acc. induction gs as [|g gs IH]; intros acc; simpl.
  - by rewrite app_nil_r.
  - rewrite IH, push_candidates, <- app_assoc. done.
Qed.

Lemma collectTickets_bind objs gs : collectTickets objs gs = gs ≫= candidatesOf objs.
Proof. unfold collectTickets. by rewrite collectTickets_from. Qed.

Lemma collectTickets_elem objs gs c :
  c ∈ collectTickets objs gs ↔
  cand_guide c ∈ gs ∧ cand_ticket c ∈ ticketNumbers (objs (cand_guide c)).
Proof.
  rewrite collectTickets_bind, list_elem_of_bind. unfold candidatesOf. split.
  - intros (g & Hc & Hg). apply list_elem_of_fmap in Hc as (t & -> & Ht). done.
  - intros [Hg Ht]. exists (cand_guide c). split; [|done].
    apply list_elem_of_fmap. exists (cand_ticket c). by destruct c.
Qed.

Lemma collectTickets_length objs gs :
  length (collectTickets objs gs)
  = sum_list ((λ g, length (ticketNumbers (objs g))) <$> gs).
Proof.
  rewrite collectTickets_bind. induction gs as [|g gs IH]; [done|].
  rewrite bind_cons, length_app, IH. unfold candidatesOf.
  by rewrite length_fmap.
Qed.

Lemma collectTickets_nil objs gs :
  collectTickets objs gs = [] ↔ holders objs gs = [].
Proof.
  rewrite collectTickets_bind. unfold holders.
  induction gs as [|g gs IH]; [done|].
  rewrite bind_cons, filter_cons. unfold candidatesOf at 1.
  case_decide as Hg; unfold holdsTicket in Hg.
  - destruct (ticketNumbers (objs g)); [done|]. simpl. done.
  - apply dec_stable in Hg. rewrite Hg. simpl. done.
Qed.

Lemma collectTickets_count objs gs g :
  length (filter (λ c, cand_guide c = g) (collectTickets objs gs))
  = (length (filter (λ x, x = g) gs) * length (ticketNumbers (objs g)))%nat.
Proof.
  rewrite collectTickets_bind. induction gs as [|x gs IH]; [done|].
  rewrite bind_cons, filter_app, length_app, IH, filter_cons.
  assert (∀ ts : list Z,
    length (filter (λ c, cand_guide c = g) ((λ t, mkCandidate t x) <$> ts))
    = if decide (x = g) then length ts else 0%nat) as Hone.
  { intros ts. destruct (decide (x = g)) as [Hx|Hx];
      induction ts as [|t ts IHts]; try done;
      rewrite fmap_cons, filter_cons; simpl.
    - rewrite decide_True by done. simpl. by rewrite IHts.
    - rewrite decide_False by done. done. }
  unfold candidatesOf. rewrite Hone.
  case_decide; subst; simpl; lia.
Qed.

(** ** One draw *)

Lemma drawRandomTicket_none rnd objs pos gs :
  collectTickets objs gs = [] →
  drawRandomTicket rnd objs pos gs = (mkDraw None None, pos).
Proof. unfold drawRandomTicket. intros ->. done. Qed.

Lemma drawRandomTicket_some rnd objs pos gs :
  collectTickets objs gs ≠ [] →
  ∃ c, collectTickets objs gs
         !! random_index rnd pos (length (collectTickets objs gs)) = Some c
       ∧ drawRandomTicket rnd objs pos gs
         = (mkDraw (Some (cand_guide c)) (Some (cand_ticket c)), S pos).
Proof.
  intros Hne. unfold drawRandomTicket.
  set (all := collectTickets objs gs) in *.
  assert (length all ≠ 0%nat) as Hlen by (by destruct all).
  rewrite decide_False by done.
  pose proof (random_index_lt rnd pos (length all) Hlen) as Hlt.
  exists (all !!! random_index rnd pos (length all)). split; [|done].
  by apply list_lookup_lookup_total_lt.
Qed.

Lemma winnerAt_lookup objs pool r :
  (r < length (collectTickets objs pool))%nat →
  winnerAt objs pool r = cand_guide <$> collectTickets objs pool !! r.
Proof.
  intros Hr. unfold winnerAt.
  destruct (drawRandomTicket_some (λ _, r) objs 0 pool) as (c & Hc & ->).
  { intros Hnil. rewrite Hnil in Hr. simpl in Hr. lia. }
  unfold random_index in Hc. rewrite Nat.mod_small in Hc by done.
  by rewrite Hc.
Qed.

Lemma filter_seq_lookup {A} (Q : nat → Prop) (P : A → Prop)
    `{∀ r, Decision (Q r)} `{∀ x, Decision (P x)} (l : list A) n :
  n = length l →
  (∀ r x, l !! r = Some x → (Q r ↔ P x)) →
  length (filter Q (seq 0 n)) = length (filter P l).
Proof.
  intros ->. induction l as [|x l IH] using rev_ind; intros HQ; [done|].
  rewrite length_app. simpl. rewrite Nat.add_1_r, seq_S, !filter_app, !length_app.
  simpl. rewrite IH.
  - f_equal. rewrite !filter_cons, !filter_nil.
    assert (Q (length l) ↔ P x) as Hx.
    { apply HQ. by rewrite lookup_app_r, Nat.sub_diag by lia. }
    destruct (decide (Q (length l))), (decide (P x)); simpl; tauto.
  - intros r y Hr. apply HQ. rewrite lookup_app_l; [done|].
    by eapply lookup_lt_Some.
Qed.

Lemma filter_eq_absent (pool : list ref) g :
  g ∉ pool → filter (λ x, x = g) pool = [].
Proof.
  induction pool as [|x l IH]; intros Hg; [done|].
  apply not_elem_of_cons in Hg as [Hne Hg].
  rewrite filter_cons, decide_False by done. by apply IH.
Qed.

Lemma filter_eq_NoDup (pool : list ref) g :
  NoDup pool → g ∈ pool → length (filter (λ x, x = g) pool) = 1%nat.
Proof.
  induction 1 as [|x l Hx Hnd IH]; intros Hg; [by apply elem_of_nil in Hg|].
  rewrite filter_cons. apply elem_of_cons in Hg as [->|Hg].
  - rewrite decide_True by done. by rewrite filter_eq_absent.
  - rewrite decide_False by (intros ->; done). by apply IH.
Qed.

(** C3. [drawRandomTicket] builds one candidate per ticket of each guide of
    the pool, in order, as many candidates as there are tickets; when there
    is one it returns the candidate at the index drawn, an index below the
    number of candidates; and among the equally weighted indices the number
    of those that make a guide [g] the winner is the number of tickets of
    [g] for each time the pool lists [g]: for a guide listed once, its
    ticket count out of the total. *)
Theorem drawRandomTicket_weighting rnd objs pos pool g :
  let all := collectTickets objs pool in
  let total := length all in
  let favourable := filter (λ r, winnerAt objs pool r = Some g) (seq 0 total) in
  all = pool ≫= candidatesOf objs
  ∧ total = sum_list ((λ x, length (ticketNumbers (objs x))) <$> pool)
  ∧ (total ≠ 0%nat →
       ∃ c, all !! (rnd pos `mod` total)%nat = Some c
            ∧ drawRandomTicket rnd objs pos pool
              = (mkDraw (Some (cand_guide c)) (Some (cand_ticket c)), S pos))
  ∧ (∀ r, (r < total)%nat → winnerAt objs pool r = cand_guide <$> all !! r)
  ∧ length favourable
    = (length (filter (λ x, x = g) pool) * length (ticketNumbers (objs g)))%nat
  ∧ (NoDup pool → g ∈ pool → length favourable = length (ticketNumbers (objs g))).
Proof.
  intros all total favourable.
  assert (length favourable
    = (length (filter (λ x, x = g) pool) * length (ticketNumbers (objs g)))%nat)
    as Hcount.
  { unfold favourable, total.
    rewrite <- collectTickets_count.
    apply filter_seq_lookup; [done|].
    intros r c Hr. rewrite winnerAt_lookup by (by eapply lookup_lt_Some).
    unfold all in Hr. rewrite Hr. simpl. split; [by intros [= ->]|by intros ->]. }
  split_and!.
  - apply collectTickets_bind.
  - apply collectTickets_length.
  - intros Hne.
    destruct (drawRandomTicket_some rnd objs pos pool) as (c & Hc & Hd).
    { intros Hnil. apply Hne. unfold total, all. by rewrite Hnil. }
    exists c. split; [exact Hc|exact Hd].
  - intros r. apply winnerAt_lookup.
  - done.
  - intros Hnd Hg. rewrite Hcount, filter_eq_NoDup by done. lia.
Qed.

(** ** Eviction: [indexOf] and [splice] *)

Lemma indexOf_from_found (a : list ref) x i :
  x ∈ a →
  ∃ k : nat, indexOf_from a x i = i + Z.of_nat k ∧ a !! k = Some x
             ∧ x ∉ take k a.
Proof.
  revert i. induction a as [|y a IH]; intros i Hx; [by apply elem_of_nil in Hx|].
  simpl. case_decide as Hy.
  - exists 0%nat. subst. split_and!; [lia|done|]. rewrite take_0. apply not_elem_of_nil.
  - apply elem_of_cons in Hx as [->|Hx]; [done|].
    destruct (IH (i + 1) Hx) as (k & Hk & Hl & Hf). exists (S k).
    split_and!; [lia|done|]. simpl. apply not_elem_of_cons. split; [congruence|done].
Qed.

Lemma indexOf_from_absent (a : list ref) x i : x ∉ a → indexOf_from a x i = -1.
Proof.
  revert i. induction a as [|y a IH]; intros i Hx; [done|].
  apply not_elem_of_cons in Hx as [Hne Hx]. simpl.
  rewrite decide_False by congruence. by apply IH.
Qed.

Lemma splice1_nonneg (a : list ref) (k : nat) :
  splice1 (Z.of_nat k) a = delete k a.
Proof.
  unfold splice1. rewrite decide_False by lia.
  destruct (decide (k < length a)%nat).
  - f_equal. lia.
  - rewrite !delete_take_drop, !take_ge, !drop_ge by lia. done.
Qed.

Lemma splice1_indexOf (a : list ref) x :
  x ∈ a →
  ∃ k, a !! k = Some x ∧ (x ∉ take k a) ∧ splice1 (indexOf a x) a = delete k a.
Proof.
  intros Hx. unfold indexOf.
  destruct (indexOf_from_found a x 0 Hx) as (k & -> & Hk & Hf).
  exists k. split_and!; [done..|]. rewrite Z.add_0_l. apply splice1_nonneg.
Qed.

(** ** The loop of [drawRandomTickets] *)

Section draw_loop_facts.
Context (rnd : tape) (objs : objects).
Implicit Types (st : LoopState) (w avail : list ref) (d : list Z) (n pos : nat).

(** One iteration of the loop, by cases. *)
Lemma draw_loop_step n w d avail pos :
  let st := mkLoopState w d avail pos in
  (avail = [] ∧ draw_loop rnd objs (S n) st = st)
  ∨ (avail ≠ [] ∧ holders objs avail = []
     ∧ draw_loop rnd objs (S n) st = draw_loop rnd objs n st)
  ∨ (∃ c k, c ∈ collectTickets objs avail ∧ cand_ticket c ≠ 0
       ∧ avail !! k = Some (cand_guide c)
       ∧ draw_loop rnd objs (S n) st
         = draw_loop rnd objs n
             (mkLoopState (w ++ [cand_guide c]) (d ++ [cand_ticket c])
                (delete k avail) (S pos)))
  ∨ (∃ c, c ∈ collectTickets objs avail ∧ cand_ticket c = 0
       ∧ draw_loop rnd objs (S n) st
         = draw_loop rnd objs n (mkLoopState w d avail (S pos))).
Proof.
  intros st. subst st.
  cbn [draw_loop ls_availableGuides ls_pos ls_winners ls_drawnTickets].
  case_decide as Hlen.
  2: { left. split; [|done]. apply length_zero_iff_nil. lia. }
  right. assert (avail ≠ []) as Hne by (intros ->; simpl in Hlen; lia).
  destruct (decide (collectTickets objs avail = [])) as [Hnil|Hsome].
  - left. rewrite drawRandomTicket_none by done. cbn [winner drawnTicket].
    split_and!; [done|by apply collectTickets_nil|done].
  - right. destruct (drawRandomTicket_some rnd objs pos avail Hsome) as (c & Hc & ->).
    cbn [winner drawnTicket]. apply list_elem_of_lookup_2 in Hc.
    unfold truthy. destruct (Z.eqb_spec (cand_ticket c) 0) as [H0|H0]; cbn [negb].
    + right. exists c. done.
    + left. pose proof Hc as Hc'. apply collectTickets_elem in Hc' as [Hg _].
      destruct (splice1_indexOf avail (cand_guide c) Hg) as (k & Hk & _ & ->).
      exists c, k. done.
Qed.

(** An invariant of the loop is preserved by any number of iterations. *)
Lemma draw_loop_invariant (P : LoopState → Prop) :
  (∀ w d avail pos, P (mkLoopState w d avail pos) →
     P (mkLoopState w d avail (S pos))) →
  (∀ w d avail pos c k, P (mkLoopState w d avail pos) →
     c ∈ collectTickets objs avail → cand_ticket c ≠ 0 →
     avail !! k = Some (cand_guide c) →
     P (mkLoopState (w ++ [cand_guide c]) (d ++ [cand_ticket c])
          (delete k avail) (S pos))) →
  ∀ n st, P st → P (draw_loop rnd objs n st).
Proof.
  intros Hpos Hwin. induction n as [|n IH]; intros [w d avail pos] HP; [done|].
  destruct (draw_loop_step n w d avail pos)
    as [[_ ->]|[(_ & _ & ->)|[(c & k & Hc & Ht & Hk & ->)|(c & Hc & Ht & ->)]]].
  - done.
  - by apply IH.
  - apply IH. by eapply Hwin.
  - apply IH. by apply Hpos.
Qed.

(** The winners and the guides still available are, together, the pool. *)
Lemma draw_loop_pool n st :
  ls_winners (draw_loop rnd objs n st) ++ ls_availableGuides (draw_loop rnd objs n st)
  ≡ₚ ls_winners st ++ ls_availableGuides st.
Proof.
  set (pool := ls_winners st ++ ls_availableGuides st).
  apply (draw_loop_invariant
           (λ s, ls_winners s ++ ls_availableGuides s ≡ₚ pool)); [done| |done].
  simpl. intros w d avail pos c k HP _ _ Hk.
  rewrite <- HP, <- app_assoc. f_equiv. simpl.
  by rewrite <- delete_Permutation.
Qed.

Lemma drawRandomTickets_submseteq pos pool count :
  winners (drawRandomTickets rnd objs pos pool count) ⊆+ pool.
Proof.
  unfold drawRandomTickets, drawRandomTickets_run. simpl.
  pose proof (draw_loop_pool (Z.to_nat count) (mkLoopState [] [] pool pos))
    as Hp. simpl in Hp.
  set (final := draw_loop _ _ _ _) in *.
  transitivity (ls_winners final ++ ls_availableGuides final).
  - by apply submseteq_inserts_r.
  - by rewrite Hp.
Qed.

(** Each drawn ticket belongs to the winner recorded with it. *)
Lemma draw_loop_ownership n st :
  Forall2 (λ g t, t ∈ ticketNumbers (objs g)) (ls_winners st) (ls_drawnTickets st) →
  Forall2 (λ g t, t ∈ ticketNumbers (objs g))
    (ls_winners (draw_loop rnd objs n st)) (ls_drawnTickets (draw_loop rnd objs n st)).
Proof.
  apply (draw_loop_invariant
           (λ s, Forall2 (λ g t, t ∈ ticketNumbers (objs g))
                   (ls_winners s) (ls_drawnTickets s))); [done|].
  simpl. intros w d avail pos c k HP Hc _ _.
  apply Forall2_app; [done|]. constructor; [|constructor].
  by apply collectTickets_elem in Hc as [_ Ht].
Qed.

End draw_loop_facts.

(** ** Winners and their tickets *)

Lemma submseteq_NoDup {A} (l1 l2 : list A) : l1 ⊆+ l2 → NoDup l2 → NoDup l1.
Proof.
  intros Hsub Hnd. apply submseteq_Permutation in Hsub as [k Hk].
  rewrite Hk in Hnd. by apply NoDup_app in Hnd as [? _].
Qed.

(** No participant wins twice when the pool lists each participant once. *)
Lemma drawRandomTickets_winners_NoDup rnd objs pos pool count :
  NoDup (participant objs <$> pool) →
  NoDup (participant objs <$> winners (drawRandomTickets rnd objs pos pool count)).
Proof.
  apply submseteq_NoDup, fmap_submseteq, drawRandomTickets_submseteq.
Qed.

Lemma drawRandomTickets_winners_NoDup_ref rnd objs pos pool count :
  NoDup pool → NoDup (winners (drawRandomTickets rnd objs pos pool count)).
Proof. apply submseteq_NoDup, drawRandomTickets_submseteq. Qed.

(** C5. Every ticket that [drawRandomTickets] records is one of the ticket
    numbers of the winner recorded with it, every winner is a guide of the
    pool, and the guide and the ticket that one call of [drawRandomTicket]
    returns are a guide of the pool and one of its ticket numbers. *)
Theorem drawRandomTickets_ticket_ownership rnd objs pos pool count :
  let r := drawRandomTickets rnd objs pos pool count in
  Forall2 (λ g t, t ∈ ticketNumbers (objs g)) (winners r) (drawnTickets r)
  ∧ Forall (λ g, g ∈ pool) (winners r)
  ∧ (∀ g t, winner (drawRandomTicket rnd objs pos pool).1 = Some g →
            drawnTicket (drawRandomTicket rnd objs pos pool).1 = Some t →
            g ∈ pool ∧ t ∈ ticketNumbers (objs g)).
Proof.
  intros r. split_and!.
  - apply draw_loop_ownership. constructor.
  - apply Forall_forall. intros g Hg.
    eapply elem_of_submseteq; [exact Hg|]. apply drawRandomTickets_submseteq.
  - intros g t.
    destruct (decide (collectTickets objs pool = [])) as [Hnil|Hsome].
    + by rewrite drawRandomTicket_none.
    + destruct (drawRandomTicket_some rnd objs pos pool Hsome) as (c & Hc & ->).
      simpl. intros [= <-] [= <-].
      apply list_elem_of_lookup_2 in Hc. by apply collectTickets_elem in Hc.
Qed.

(** ** The number of winners *)

(** Side conditions on a concrete pool: each entry is checked by
    computation. *)
Ltac check_pool := repeat constructor; vm_compute; discriminate.

Lemma holders_delete objs (avail : list ref) k g :
  avail !! k = Some g → holdsTicket objs g →
  length (holders objs avail) = S (length (holders objs (delete k avail))).
Proof.
  intros Hk Hg. unfold holders.
  rewrite (delete_Permutation avail k g Hk) at 1.
  by rewrite filter_cons, decide_True.
Qed.

Lemma draw_loop_length rnd objs n w d avail pos :
  ticketsNonzero objs avail →
  length (ls_winners (draw_loop rnd objs n (mkLoopState w d avail pos)))
  = (length w + Nat.min n (length (holders objs avail)))%nat.
Proof.
  revert w d avail pos. induction n as [|n IH]; intros w d avail pos Hnz.
  - simpl. lia.
  - destruct (draw_loop_step rnd objs n w d avail pos)
      as [[-> ->]|[(_ & Hh & ->)|[(c & k & Hc & Ht & Hk & ->)|(c & Hc & Ht & _)]]].
    + simpl. lia.
    + rewrite IH, Hh by done. simpl. lia.
    + rewrite IH by by apply Forall_delete.
      apply collectTickets_elem in Hc as [_ Hc].
      rewrite (holders_delete objs avail k (cand_guide c)), length_app; [simpl; lia|done|].
      unfold holdsTicket. intros Hnil. rewrite Hnil in Hc. by apply elem_of_nil in Hc.
    + apply collectTickets_elem in Hc as [Hg Hc].
      unfold ticketsNonzero in Hnz. rewrite Forall_forall in Hnz.
      specialize (Hnz _ Hg). rewrite Forall_forall in Hnz. by destruct (Hnz _ Hc).
Qed.

Lemma draw_loop_lengths rnd objs n st :
  length (ls_winners st) = length (ls_drawnTickets st) →
  length (ls_winners (draw_loop rnd objs n st))
  = length (ls_drawnTickets (draw_loop rnd objs n st)).
Proof.
  apply (draw_loop_invariant rnd objs
           (λ s, length (ls_winners s) = length (ls_drawnTickets s))); [done|].
  simpl. intros. rewrite !length_app. simpl. lia.
Qed.

Lemma distinctHolders_size objs pool :
  NoDup (participant objs <$> pool) →
  size (distinctHolders objs pool) = length (holders objs pool).
Proof.
  intros Hnd. unfold distinctHolders. rewrite size_list_to_set, length_fmap; [done|].
  eapply sublist_NoDup; [exact Hnd|]. apply fmap_sublist, sublist_filter.
Qed.

Lemma holders_all objs pool :
  Forall (holdsTicket objs) pool → holders objs pool = pool.
Proof.
  unfold holders. induction 1 as [|g l Hg _ IH]; [done|].
  by rewrite filter_cons, decide_True, IH.
Qed.

(** The number of winners in general: the count, or the number of entries
    that hold a ticket when there are fewer. *)
Lemma drawRandomTickets_length rnd objs pos pool count :
  ticketsNonzero objs pool →
  length (winners (drawRandomTickets rnd objs pos pool count))
  = Nat.min (Z.to_nat count) (length (holders objs pool)).
Proof.
  intros Hnz. unfold drawRandomTickets, drawRandomTickets_run. simpl.
  by rewrite draw_loop_length.
Qed.

(** A pool of one participant gives one winner, or none when the
    participant holds no ticket. *)
Lemma drawRandomTickets_single_participant rnd objs pos g count :
  ticketsNonzero objs [g] → 1 ≤ count →
  length (winners (drawRandomTickets rnd objs pos [g] count))
  = if decide (holdsTicket objs g) then 1%nat else 0%nat.
Proof.
  intros Hnz Hcount. rewrite drawRandomTickets_length by done.
  unfold holders. rewrite filter_cons, filter_nil.
  case_decide; simpl; lia.
Qed.

(** When every guide of the pool holds a ticket and the count covers the
    pool, every entry of the pool wins, once per time it is listed. *)
Lemma drawRandomTickets_exhausts_pool rnd objs pos pool count :
  ticketsNonzero objs pool → Forall (holdsTicket objs) pool →
  Z.of_nat (length pool) ≤ count →
  winners (drawRandomTickets rnd objs pos pool count) ≡ₚ pool.
Proof.
  intros Hnz Hall Hcount. apply submseteq_length_Permutation.
  - apply drawRandomTickets_submseteq.
  - rewrite drawRandomTickets_length, holders_all by done. lia.
Qed.

(** C4 (amended). On a pool that lists each participant once and has no
    ticket numbered 0, [drawRandomTickets] called with a count that is at
    least the number of distinct participants holding a ticket returns
    exactly that many winners, and as many tickets. *)
Theorem drawRandomTickets_early_termination rnd objs pos pool count :
  ticketsNonzero objs pool →
  NoDup (participant objs <$> pool) →
  Z.of_nat (size (distinctHolders objs pool)) ≤ count →
  let r := drawRandomTickets rnd objs pos pool count in
  length (winners r) = size (distinctHolders objs pool)
  ∧ length (drawnTickets r) = size (distinctHolders objs pool).
Proof.
  intros Hnz Hnd Hcount r.
  assert (length (winners r) = size (distinctHolders objs pool)) as Hw.
  { unfold r, drawRandomTickets, drawRandomTickets_run. simpl.
    rewrite draw_loop_length by done. rewrite distinctHolders_size in * by done.
    simpl. lia. }
  split; [done|]. rewrite <- Hw. symmetry.
  by apply draw_loop_lengths.
Qed.

(** One participant holding tickets, five winners asked for: one winner. *)
Lemma drawRandomTickets_early_termination_witness :
  let r := drawRandomTickets sampleTape sampleObjects 0 [0%nat] 5 in
  length (winners r) = size (distinctHolders sampleObjects [0%nat])
  ∧ length (drawnTickets r) = size (distinctHolders sampleObjects [0%nat]).
Proof.
  apply (drawRandomTickets_early_termination sampleTape sampleObjects 0 [0%nat] 5).
  - check_pool.
  - apply NoDup_singleton.
  - vm_compute. discriminate.
Defined.

(** One participant holding no ticket, five winners asked for: the pool
    has one distinct participant and the draw returns no winner. *)
Lemma drawRandomTickets_early_termination_counterexample :
  let r := drawRandomTickets sampleTape idleObjects 0 [0%nat] 5 in
  Z.of_nat (size (distinctParticipants idleObjects [0%nat])) < 5
  ∧ size (distinctParticipants idleObjects [0%nat]) = 1%nat
  ∧ length (winners r) = 0%nat
  ∧ length (winners r) ≠ size (distinctParticipants idleObjects [0%nat]).
Proof.
  assert (size (distinctParticipants idleObjects [0%nat]) = 1%nat) as Hs.
  { unfold distinctParticipants. rewrite size_list_to_set; [done|apply NoDup_singleton]. }
  rewrite Hs. split_and!; [lia|done|by vm_compute|by vm_compute].
Qed.

(** ** A pool that lists a participant twice *)

Lemma Permutation_pair_eq {A} (x : A) (l : list A) : l ≡ₚ [x; x] → l = [x; x].
Proof.
  intros Hp. pose proof (Permutation_length Hp) as Hlen.
  destruct l as [|a [|b [|c l]]]; simplify_eq/=.
  assert (∀ y, y ∈ [x; x] → y = x) as Hx.
  { intros y Hy. repeat (apply elem_of_cons in Hy as [Hy|Hy]; [done|]).
    by apply elem_of_nil in Hy. }
  rewrite (Hx a), (Hx b); [done|rewrite <- Hp..].
  - right. left.
  - left.
Qed.

(** C1. [drawRandomTickets] on a pool that lists a participant twice, for
    every tape: with the pool that the allocator builds from a roster naming
    guide 1 twice (two objects, both of participant 1), and with a pool
    naming the same object twice, both winners of a draw of two are the same
    participant. *)
Theorem drawRandomTickets_double_win rnd pos :
  let byId := drawRandomTickets rnd twinObjects pos [0%nat; 1%nat] 2 in
  let byRef := drawRandomTickets rnd sampleObjects pos [0%nat; 0%nat] 2 in
  participant twinObjects <$> winners byId = [1; 1]
  ∧ ¬ NoDup (participant twinObjects <$> winners byId)
  ∧ winners byRef = [0%nat; 0%nat]
  ∧ ¬ NoDup (winners byRef).
Proof.
  intros byId byRef.
  assert (∀ {A} (x : A), ¬ NoDup [x; x]) as Hdup.
  { intros A x Hnd. apply NoDup_cons in Hnd as [Hx _]. apply Hx. left. }
  assert (participant twinObjects <$> winners byId = [1; 1]) as Hid.
  { apply Permutation_pair_eq. unfold byId.
    rewrite drawRandomTickets_exhausts_pool; [done| | |done]; check_pool. }
  assert (winners byRef = [0%nat; 0%nat]) as Href.
  { apply Permutation_pair_eq. unfold byRef.
    rewrite drawRandomTickets_exhausts_pool; [done| | |done]; check_pool. }
  rewrite Hid, Href. split_and!; [done|apply Hdup|done|apply Hdup].
Qed.

(** ** Counts of 0 or less, and empty inputs *)

(** C8 (amended). [drawRandomTickets] called with a count of 0 or less
    completes normally with no winner and no ticket, and leaves the loop
    without an iteration: nothing is drawn and no guide is removed. *)
Theorem drawWinners_nonpositive_count rnd objs pos pool count :
  count ≤ 0 →
  drawWinners rnd objs pos pool count = Normal (mkDrawn [] [])
  ∧ drawRandomTickets_run rnd objs pos pool count = mkLoopState [] [] pool pos.
Proof.
  intros Hc. unfold drawWinners, drawRandomTickets, drawRandomTickets_run.
  replace (Z.to_nat count) with 0%nat by lia. done.
Qed.

(** The count -3 on the pool of two participants. *)
Lemma drawWinners_nonpositive_count_witness :
  drawWinners sampleTape sampleObjects 0 [0%nat; 1%nat] (-3) = Normal (mkDrawn [] [])
  ∧ drawRandomTickets_run sampleTape sampleObjects 0 [0%nat; 1%nat] (-3)
    = mkLoopState [] [] [0%nat; 1%nat] 0.
Proof.
  apply (drawWinners_nonpositive_count sampleTape sampleObjects 0 [0%nat; 1%nat] (-3)).
  lia.
Defined.

(** With the counts 0 and -3 the call does not raise [InvalidInputError]. *)
Lemma drawWinners_nonpositive_count_counterexample :
  (0 ≤ 0 ∧ drawWinners sampleTape sampleObjects 0 [0%nat; 1%nat] 0
           ≠ Throw InvalidInputError)
  ∧ (-3 ≤ 0 ∧ drawWinners sampleTape sampleObjects 0 [0%nat; 1%nat] (-3)
              ≠ Throw InvalidInputError).
Proof. split; (split; [lia|discriminate]). Qed.

(** C9. Empty inputs give empty results: the allocation of no guide is the
    empty list, a draw from an empty pool returns no winner and no ticket for
    every count, and neither reads the tape nor runs an iteration. *)
Theorem empty_inputs_give_empty_results rnd objs pos count :
  allocate rnd pos [] = Normal []
  ∧ assignTicketsToGuides rnd pos [] = ([], pos)
  ∧ drawWinners rnd objs pos [] count = Normal (mkDrawn [] [])
  ∧ drawRandomTickets_run rnd objs pos [] count = mkLoopState [] [] [] pos
  ∧ drawRandomTicket rnd objs pos [] = (mkDraw None None, pos).
Proof.
  assert (drawRandomTickets_run rnd objs pos [] count = mkLoopState [] [] [] pos) as Hrun.
  { unfold drawRandomTickets_run. by destruct (Z.to_nat count). }
  split_and!; try done.
  unfold drawWinners, drawRandomTickets. by rewrite Hrun.
Qed.

(** ** The draw engine on the store *)

Lemma store_readArray_insert objs (m : gmap Store.loc (list ref)) a avail :
  Store.readArray (Store.mkHeap objs (<[a := avail]> m)) a = avail.
Proof. unfold Store.readArray. simpl. by rewrite lookup_insert_eq. Qed.

Lemma store_drawRandomTicket_reads rnd pos a h :
  Store.drawRandomTicket rnd pos a h
  = (drawRandomTicket rnd (Store.guideObjects h) pos (Store.readArray h a), h).
Proof.
  unfold Store.drawRandomTicket, drawRandomTicket. by case_decide.
Qed.

Lemma store_spliceArray_insert objs (m : gmap Store.loc (list ref)) a avail start :
  Store.spliceArray (Store.mkHeap objs (<[a := avail]> m)) a start
  = Store.mkHeap objs (<[a := splice1 start avail]> m).
Proof. unfold Store.spliceArray. simpl. by rewrite alter_insert_eq. Qed.

(** The loop on the store computes what the loop on the contents computes,
    and writes to the array [availableGuides] only. *)
Lemma store_draw_loop_simulation rnd objs (m : gmap Store.loc (list ref)) a n
    w d avail pos :
  Store.draw_loop rnd a n
    (Store.mkLoopState w d pos (Store.mkHeap objs (<[a := avail]> m)))
  = let st := draw_loop rnd objs n (mkLoopState w d avail pos) in
    Store.mkLoopState (ls_winners st) (ls_drawnTickets st) (ls_pos st)
      (Store.mkHeap objs (<[a := ls_availableGuides st]> m)).
Proof.
  revert w d avail pos. induction n as [|n IH]; intros w d avail pos; [done|].
  cbn [Store.draw_loop draw_loop Store.ls_heap Store.ls_pos Store.ls_winners
       Store.ls_drawnTickets ls_availableGuides ls_pos ls_winners ls_drawnTickets].
  rewrite store_readArray_insert. case_decide; [|done].
  rewrite store_drawRandomTicket_reads, store_readArray_insert.
  cbn [Store.guideObjects].
  destruct (drawRandomTicket rnd objs pos avail) as [[[g|] [t|]] pos']; cbn [winner drawnTicket];
    try apply IH.
  destruct (truthy t); [|apply IH].
  rewrite store_spliceArray_insert. apply IH.
Qed.

(** A splice of the caller's own array would show in the store; the draw
    leaves that array as it was. *)
Lemma store_splice_is_visible :
  let h := Store.mkHeap sampleObjects {[ 0%nat := [0%nat; 1%nat] ]} in
  Store.readArray (Store.spliceArray h 0%nat 0) 0%nat = [1%nat]
  ∧ Store.readArray (Store.drawRandomTickets sampleTape 0 0%nat 2 h).2 0%nat
    = [0%nat; 1%nat]
  ∧ winners (Store.drawRandomTickets sampleTape 0 0%nat 2 h).1.1 = [1%nat; 0%nat].
Proof. vm_compute. done. Qed.

(** C10. [drawRandomTickets] and [drawRandomTicket] leave their input as it
    was: the guide objects (and so their [ticketNumbers]) are unchanged, the
    store after [drawRandomTickets] is the store before it with one array
    added, the copy [availableGuides] at a location that was not in use, so
    every array of the caller (the pool among them) has the contents it had;
    [drawRandomTicket] returns the store untouched. Both return what the
    functions on the contents compute. *)
Theorem draws_leave_their_input_unchanged rnd pos pool count h :
  let result := Store.drawRandomTickets rnd pos pool count h in
  let h' := result.2 in
  let copy := fresh (dom (Store.arrays h)) in
  let final :=
    drawRandomTickets_run rnd (Store.guideObjects h) pos (Store.readArray h pool) count in
  Store.guideObjects h' = Store.guideObjects h
  ∧ (copy ∉ dom (Store.arrays h))
  ∧ Store.arrays h' = <[copy := ls_availableGuides final]> (Store.arrays h)
  ∧ Store.arrays h ⊆ Store.arrays h'
  ∧ (∀ a, a ∈ dom (Store.arrays h) → Store.readArray h' a = Store.readArray h a)
  ∧ result.1.1
    = drawRandomTickets rnd (Store.guideObjects h) pos (Store.readArray h pool) count
  ∧ (Store.drawRandomTicket rnd pos pool h).2 = h
  ∧ (Store.drawRandomTicket rnd pos pool h).1
    = drawRandomTicket rnd (Store.guideObjects h) pos (Store.readArray h pool).
Proof.
  intros result h' copy final.
  assert (copy ∉ dom (Store.arrays h)) as Hfresh by apply is_fresh.
  assert (result
    = (mkDrawn (ls_winners final) (ls_drawnTickets final), ls_pos final,
       Store.mkHeap (Store.guideObjects h)
         (<[copy := ls_availableGuides final]> (Store.arrays h)))) as Hres.
  { unfold result, Store.drawRandomTickets, Store.allocArray. fold copy.
    by rewrite store_draw_loop_simulation. }
  assert (Store.arrays h' = <[copy := ls_availableGuides final]> (Store.arrays h))
    as Harr by (unfold h'; by rewrite Hres).
  split_and!.
  - unfold h'. by rewrite Hres.
  - done.
  - done.
  - rewrite Harr. apply insert_subseteq. by apply not_elem_of_dom.
  - intros a Ha. unfold Store.readArray. rewrite Harr, lookup_insert_ne; [done|].
    intros ->. done.
  - by rewrite Hres.
  - by rewrite store_drawRandomTicket_reads.
  - by rewrite store_drawRandomTicket_reads.
Qed.

(** * Further properties *)

(** ** Ticket lookup *)

Lemma includes_elem (a : list Z) x : includes a x = true ↔ x ∈ a.
Proof.
  unfold includes. rewrite existsb_exists. split.
  - intros (y & Hy & Heq). apply Z.eqb_eq in Heq as ->. by apply list_elem_of_In.
  - intros Hx. exists x. split; [by apply list_elem_of_In|apply Z.eqb_refl].
Qed.

Lemma includes_not_elem (a : list Z) x : includes a x = false ↔ x ∉ a.
Proof. rewrite <- includes_elem. by destruct (includes a x). Qed.

Lemma findGuideByTicket_Some objs t pool g :
  findGuideByTicket objs t pool = Some g ↔
  ∃ i, pool !! i = Some g ∧ t ∈ ticketNumbers (objs g)
       ∧ ∀ j g', (j < i)%nat → pool !! j = Some g' → t ∉ ticketNumbers (objs g').
Proof.
  unfold findGuideByTicket. induction pool as [|x pool IH]; simpl.
  - split; [done|]. by intros (i & Hi & _).
  - destruct (includes (ticketNumbers (objs x)) t) eqn:Hx.
    + apply includes_elem in Hx. split.
      * intros [= <-]. exists 0%nat. split_and!; [done..|]. intros j g' Hj. lia.
      * intros (i & Hi & Ht & Hfirst). destruct i as [|i]; [by simplify_eq/=|].
        destruct (Hfirst 0%nat x); [lia|done|done].
    + apply includes_not_elem in Hx. rewrite IH. split.
      * intros (i & Hi & Ht & Hfirst). exists (S i). split_and!; [done..|].
        intros [|j] g' Hj Hg'; simplify_eq/=; [done|]. eapply Hfirst; [|done]. lia.
      * intros (i & Hi & Ht & Hfirst). destruct i as [|i]; simplify_eq/=; [done|].
        exists i. split_and!; [done..|]. intros j g' Hj Hg'.
        apply (Hfirst (S j) g'); [lia|done].
Qed.

Lemma findGuideByTicket_None objs t pool :
  findGuideByTicket objs t pool = None ↔ ∀ g, g ∈ pool → t ∉ ticketNumbers (objs g).
Proof.
  unfold findGuideByTicket. induction pool as [|x pool IH]; simpl.
  - split; [|done]. intros _ g Hg. by apply elem_of_nil in Hg.
  - destruct (includes (ticketNumbers (objs x)) t) eqn:Hx.
    + apply includes_elem in Hx. split; [done|]. intros Hall.
      destruct (Hall x); [left|done].
    + apply includes_not_elem in Hx. rewrite IH. split.
      * intros Hall g Hg. apply elem_of_cons in Hg as [->|Hg]; [done|by apply Hall].
      * intros Hall g Hg. apply Hall. by right.
Qed.

(** X1. [findGuideByTicket] returns the first guide of the list that holds
    the ticket, and null exactly when no guide of the list holds it. *)
Theorem findGuideByTicket_first_owner objs t pool :
  match findGuideByTicket objs t pool with
  | Some g =>
      ∃ i, pool !! i = Some g ∧ t ∈ ticketNumbers (objs g)
           ∧ ∀ j g', (j < i)%nat → pool !! j = Some g' → t ∉ ticketNumbers (objs g')
  | None => ∀ g, g ∈ pool → t ∉ ticketNumbers (objs g)
  end.
Proof.
  destruct (findGuideByTicket objs t pool) as [g|] eqn:Hf.
  - by apply findGuideByTicket_Some.
  - by apply findGuideByTicket_None.
Qed.

(** When no ticket number occurs twice in the pool, the lookup of a ticket
    returns the guide that holds it. *)
Lemma findGuideByTicket_owner objs t pool g :
  NoDup (cand_ticket <$> collectTickets objs pool) →
  g ∈ pool → t ∈ ticketNumbers (objs g) →
  findGuideByTicket objs t pool = Some g.
Proof.
  intros Hnd Hg Ht.
  destruct (findGuideByTicket objs t pool) as [g'|] eqn:Hf.
  - apply findGuideByTicket_Some in Hf as (i & Hi & Ht' & _).
    apply list_elem_of_lookup_2 in Hi.
    assert (mkCandidate t g ∈ collectTickets objs pool) as H1
      by by apply collectTickets_elem.
    assert (mkCandidate t g' ∈ collectTickets objs pool) as H2
      by by apply collectTickets_elem.
    apply list_elem_of_lookup in H1 as [i1 H1], H2 as [i2 H2].
    assert (i1 = i2) as ->.
    { eapply NoDup_lookup; [exact Hnd|..]; rewrite list_lookup_fmap.
      - by rewrite H1. - by rewrite H2. }
    rewrite H1 in H2. by injection H2 as ->.
  - rewrite findGuideByTicket_None in Hf. by destruct (Hf g Hg).
Qed.

(** ** The allocation on every input *)

Lemma requested_covers guides :
  (Z.to_nat (sumTotalTickets guides) ≤ requested guides)%nat.
Proof.
  induction guides as [|g gs IH]; [done|].
  rewrite sumTotalTickets_cons, requested_cons. lia.
Qed.

Lemma assignTicketsToGuides_issued rnd pos guides :
  issuedTickets (assignTicketsToGuides rnd pos guides).1
  ≡ₚ ticketSequence (sumTotalTickets guides).
Proof.
  rewrite assignTicketsToGuides_assigned, assigned_issued, drop_0.
  pose proof (requested_covers guides) as Hreq.
  rewrite take_ge.
  - apply shuffleTickets_Permutation.
  - rewrite shuffleTickets_Permutation, ticketSequence_length. done.
Qed.

Lemma assigned_at_most allTickets ticketIndex guides :
  Forall (λ o, (length (ticketNumbers o) ≤ Z.to_nat (totalTickets (guide o)))%nat)
    (assigned allTickets ticketIndex guides).
Proof.
  revert ticketIndex. induction guides as [|g gs IH]; intros idx; simpl.
  - constructor.
  - constructor; [|apply IH]. simpl.
    rewrite sortTickets_length, length_take. lia.
Qed.

(** X2. On every list of guides, negative counts included,
    [assignTicketsToGuides] issues each number from 1 to [N] once and no
    other number, [N] the sum of the counts: no number is shared by two
    outputs, and no guide receives more numbers than it asks for. *)
Theorem allocation_issues_each_number_once rnd pos guides :
  let out := (assignTicketsToGuides rnd pos guides).1 in
  let N := sumTotalTickets guides in
  NoDup (issuedTickets out)
  ∧ (∀ t, t ∈ issuedTickets out ↔ 1 ≤ t ≤ N)
  ∧ length (issuedTickets out) = Z.to_nat N
  ∧ Forall (λ o, (length (ticketNumbers o) ≤ Z.to_nat (totalTickets (guide o)))%nat) out
  ∧ (∀ i j a b t, i ≠ j → out !! i = Some a → out !! j = Some b →
       t ∈ ticketNumbers a → t ∉ ticketNumbers b).
Proof.
  intros out N.
  pose proof (assignTicketsToGuides_issued rnd pos guides) as Hissued.
  fold out N in Hissued.
  assert (NoDup (issuedTickets out)) as Hnd.
  { rewrite Hissued. apply ticketSequence_NoDup. }
  split_and!.
  - done.
  - intros t. rewrite Hissued. apply ticketSequence_elem.
  - by rewrite Hissued, ticketSequence_length.
  - unfold out. rewrite assignTicketsToGuides_assigned. apply assigned_at_most.
  - intros i j a b t Hij Hi Hj. unfold issuedTickets in Hnd.
    eapply (NoDup_join_disjoint _ i j); [done..| |].
    + by rewrite list_lookup_fmap, Hi.
    + by rewrite list_lookup_fmap, Hj.
Qed.

(** ** Sorted tickets and ranges *)

Lemma fold_min_spec (ts : list Z) (t : Z) :
  fold_left Z.min ts t ∈ t :: ts ∧ ∀ x, x ∈ t :: ts → fold_left Z.min ts t ≤ x.
Proof.
  revert t. induction ts as [|y ts IH]; intros t; simpl.
  - split; [left|]. intros x Hx. apply list_elem_of_singleton in Hx as ->. done.
  - destruct (IH (Z.min t y)) as [Hin Hle]. split.
    + apply elem_of_cons in Hin as [Hin|Hin]; [|by do 2 right].
      rewrite Hin. destruct (Z.min_spec t y) as [[_ ->]|[_ ->]]; [left|right; left].
    + intros x Hx. pose proof (Hle (Z.min t y) ltac:(left)) as Hmin.
      apply elem_of_cons in Hx as [->|Hx]; [lia|].
      apply elem_of_cons in Hx as [->|Hx]; [lia|].
      apply Hle. by right.
Qed.

Lemma fold_max_spec (ts : list Z) (t : Z) :
  fold_left Z.max ts t ∈ t :: ts ∧ ∀ x, x ∈ t :: ts → x ≤ fold_left Z.max ts t.
Proof.
  revert t. induction ts as [|y ts IH]; intros t; simpl.
  - split; [left|]. intros x Hx. apply list_elem_of_singleton in Hx as ->. done.
  - destruct (IH (Z.max t y)) as [Hin Hle]. split.
    + apply elem_of_cons in Hin as [Hin|Hin]; [|by do 2 right].
      rewrite Hin. destruct (Z.max_spec t y) as [[_ ->]|[_ ->]]; [right; left|left].
    + intros x Hx. pose proof (Hle (Z.max t y) ltac:(left)) as Hmax.
      apply elem_of_cons in Hx as [->|Hx]; [lia|].
      apply elem_of_cons in Hx as [->|Hx]; [lia|].
      apply Hle. by right.
Qed.

Lemma rangeOf_spec (tn : list Z) :
  match tn with
  | [] => rangeOf tn = mkTicketRange 0 0
  | _ => range_start (rangeOf tn) ∈ tn ∧ range_end (rangeOf tn) ∈ tn
         ∧ ∀ t, t ∈ tn → range_start (rangeOf tn) ≤ t ≤ range_end (rangeOf tn)
  end.
Proof.
  destruct tn as [|t ts]; [done|]. simpl.
  destruct (fold_min_spec ts t) as [Hm1 Hm2], (fold_max_spec ts t) as [HM1 HM2].
  split_and!; [done..|]. intros x Hx. split; [by apply Hm2|by apply HM2].
Qed.

Lemma assigned_shape allTickets ticketIndex guides :
  Forall (λ o, Sorted Z.le (ticketNumbers o) ∧ ticketRange o = rangeOf (ticketNumbers o))
    (assigned allTickets ticketIndex guides).
Proof.
  revert ticketIndex. induction guides as [|g gs IH]; intros idx; simpl.
  - constructor.
  - constructor; [|apply IH]. simpl. split; [|done].
    unfold sortTickets. apply (Sorted_merge_sort Z.le).
Qed.

(** X3. In every output of [assignTicketsToGuides] the ticket numbers are
    in ascending order, and [ticketRange] is 0 to 0 when there is none and
    otherwise goes from one of the guide's tickets to another and bounds
    every ticket of the guide. *)
Theorem allocation_sorted_with_range rnd pos guides o :
  o ∈ (assignTicketsToGuides rnd pos guides).1 →
  Sorted Z.le (ticketNumbers o)
  ∧ match ticketNumbers o with
    | [] => ticketRange o = mkTicketRange 0 0
    | _ => range_start (ticketRange o) ∈ ticketNumbers o
           ∧ range_end (ticketRange o) ∈ ticketNumbers o
           ∧ ∀ t, t ∈ ticketNumbers o →
                  range_start (ticketRange o) ≤ t ≤ range_end (ticketRange o)
    end.
Proof.
  rewrite assignTicketsToGuides_assigned. intros Ho.
  pose proof (assigned_shape (shuffleTickets rnd pos
    (ticketSequence (sumTotalTickets guides))).1 0 guides) as Hall.
  rewrite Forall_forall in Hall. destruct (Hall o Ho) as [Hs Hr].
  split; [done|]. rewrite Hr. apply rangeOf_spec.
Qed.

(** The first output for the roster with 3 and 2 tickets. *)
Lemma allocation_sorted_with_range_witness :
  let o := mkGuideWithTickets (sampleGuide 1 3) [1; 2; 5] (mkTicketRange 1 5) in
  Sorted Z.le (ticketNumbers o)
  ∧ match ticketNumbers o with
    | [] => ticketRange o = mkTicketRange 0 0
    | _ => range_start (ticketRange o) ∈ ticketNumbers o
           ∧ range_end (ticketRange o) ∈ ticketNumbers o
           ∧ ∀ t, t ∈ ticketNumbers o →
                  range_start (ticketRange o) ≤ t ≤ range_end (ticketRange o)
    end.
Proof.
  apply (allocation_sorted_with_range sampleTape 0 sampleRoster).
  vm_compute. left.
Defined.

(** ** More on [drawRandomTickets] *)

Lemma draw_loop_at_most rnd objs n st :
  (length (ls_winners (draw_loop rnd objs n st)) ≤ length (ls_winners st) + n)%nat.
Proof.
  revert st. induction n as [|n IH]; intros [w d avail pos]; [simpl; lia|].
  destruct (draw_loop_step rnd objs n w d avail pos)
    as [[_ ->]|[(_ & _ & ->)|[(c & k & _ & _ & _ & ->)|(c & _ & _ & ->)]]].
  - simpl. lia.
  - etransitivity; [apply IH|]. simpl. lia.
  - etransitivity; [apply IH|]. simpl. rewrite length_app. simpl. lia.
  - etransitivity; [apply IH|]. simpl. lia.
Qed.

Lemma draw_loop_recorded rnd objs n st :
  Forall (holdsTicket objs) (ls_winners st) ∧ Forall (λ t, t ≠ 0) (ls_drawnTickets st) →
  Forall (holdsTicket objs) (ls_winners (draw_loop rnd objs n st))
  ∧ Forall (λ t, t ≠ 0) (ls_drawnTickets (draw_loop rnd objs n st)).
Proof.
  apply (draw_loop_invariant rnd objs
           (λ s, Forall (holdsTicket objs) (ls_winners s)
                 ∧ Forall (λ t, t ≠ 0) (ls_drawnTickets s))); [done|].
  simpl. intros w d avail pos c k [Hw Hd] Hc Ht _. split.
  - apply Forall_app. split; [done|]. constructor; [|constructor].
    apply collectTickets_elem in Hc as [_ Hc]. unfold holdsTicket.
    intros Hnil. rewrite Hnil in Hc. by apply elem_of_nil in Hc.
  - apply Forall_app. split; [done|]. by repeat constructor.
Qed.

(** X4. [drawRandomTickets] returns as many tickets as winners, never more
    winners than the count asked for nor than the pool has entries; every
    winner holds at least one ticket and no recorded ticket is 0. *)
Theorem drawRandomTickets_result_bounds rnd objs pos pool count :
  let r := drawRandomTickets rnd objs pos pool count in
  length (drawnTickets r) = length (winners r)
  ∧ Z.of_nat (length (winners r)) ≤ Z.max 0 count
  ∧ (length (winners r) ≤ length pool)%nat
  ∧ Forall (holdsTicket objs) (winners r)
  ∧ Forall (λ t, t ≠ 0) (drawnTickets r).
Proof.
  intros r. unfold r, drawRandomTickets, drawRandomTickets_run. simpl.
  set (st0 := mkLoopState [] [] pool pos).
  split_and!.
  - symmetry. by apply draw_loop_lengths.
  - pose proof (draw_loop_at_most rnd objs (Z.to_nat count) st0). simpl in *. lia.
  - apply submseteq_length.
    apply (drawRandomTickets_submseteq rnd objs pos pool count).
  - by apply draw_loop_recorded.
  - by apply draw_loop_recorded.
Qed.

(** X5. On a pool whose participants have pairwise different ids, no
    participant wins twice: the ids of the winners are pairwise different,
    and so are the winners. *)
Theorem distinct_pool_distinct_winners rnd objs pos pool count :
  NoDup (participant objs <$> pool) →
  let r := drawRandomTickets rnd objs pos pool count in
  NoDup (participant objs <$> winners r) ∧ NoDup (winners r).
Proof.
  intros Hnd r.
  assert (NoDup (participant objs <$> winners r)) as Hids.
  { eapply submseteq_NoDup; [|exact Hnd].
    apply fmap_submseteq, drawRandomTickets_submseteq. }
  split; [done|]. by apply NoDup_fmap_1 in Hids.
Qed.

(** The pool of two participants, two winners asked for. *)
Lemma distinct_pool_distinct_winners_witness :
  let r := drawRandomTickets sampleTape sampleObjects 0 [0%nat; 1%nat] 2 in
  NoDup (participant sampleObjects <$> winners r) ∧ NoDup (winners r).
Proof.
  apply (distinct_pool_distinct_winners sampleTape sampleObjects 0 [0%nat; 1%nat] 2).
  compute_done.
Defined.

(** The ticket numbers of the candidates of a list of guides. *)
Lemma candidate_tickets objs (gs : list ref) :
  cand_ticket <$> collectTickets objs gs = gs ≫= (λ g, ticketNumbers (objs g)).
Proof.
  rewrite collectTickets_bind. induction gs as [|g gs IH]; [done|].
  rewrite !bind_cons, fmap_app, IH. f_equal.
  unfold candidatesOf. rewrite <- list_fmap_compose. apply list_fmap_id.
Qed.

Lemma candidate_tickets_app objs (gs1 gs2 : list ref) :
  cand_ticket <$> collectTickets objs (gs1 ++ gs2)
  = (cand_ticket <$> collectTickets objs gs1) ++ (cand_ticket <$> collectTickets objs gs2).
Proof. by rewrite !candidate_tickets, bind_app. Qed.

(** The tickets drawn are among the tickets of the winners, each at most
    as often as the winners hold it. *)
Lemma draw_loop_drawn rnd objs n st :
  ls_drawnTickets st ⊆+ cand_ticket <$> collectTickets objs (ls_winners st) →
  ls_drawnTickets (draw_loop rnd objs n st)
  ⊆+ cand_ticket <$> collectTickets objs (ls_winners (draw_loop rnd objs n st)).
Proof.
  apply (draw_loop_invariant rnd objs
           (λ s, ls_drawnTickets s
                 ⊆+ cand_ticket <$> collectTickets objs (ls_winners s))); [done|].
  simpl. intros w d avail pos c k HP Hc _ _.
  rewrite candidate_tickets_app. apply submseteq_app; [done|].
  rewrite candidate_tickets. simpl. rewrite app_nil_r.
  apply collectTickets_elem in Hc as [_ Hc].
  apply singleton_submseteq_l. done.
Qed.

Lemma drawRandomTickets_drawn_submseteq rnd objs pos pool count :
  drawnTickets (drawRandomTickets rnd objs pos pool count)
  ⊆+ cand_ticket <$> collectTickets objs pool.
Proof.
  unfold drawRandomTickets, drawRandomTickets_run. simpl.
  set (st0 := mkLoopState [] [] pool pos).
  etransitivity; [by apply (draw_loop_drawn rnd objs (Z.to_nat count) st0)|].
  rewrite !candidate_tickets. apply bind_submseteq.
  apply (drawRandomTickets_submseteq rnd objs pos pool count).
Qed.

(** X6. On a pool in which no ticket number occurs twice, the tickets that
    [drawRandomTickets] returns are pairwise different, and
    [findGuideByTicket] of each drawn ticket is the winner recorded with it;
    the same holds for the guide and the ticket of one [drawRandomTicket]. *)
Theorem distinct_tickets_distinct_draws rnd objs pos pool count :
  NoDup (cand_ticket <$> collectTickets objs pool) →
  let r := drawRandomTickets rnd objs pos pool count in
  NoDup (drawnTickets r)
  ∧ Forall2 (λ g t, findGuideByTicket objs t pool = Some g) (winners r) (drawnTickets r)
  ∧ (∀ g t, winner (drawRandomTicket rnd objs pos pool).1 = Some g →
            drawnTicket (drawRandomTicket rnd objs pos pool).1 = Some t →
            findGuideByTicket objs t pool = Some g).
Proof.
  intros Hnd r. split_and!.
  - eapply submseteq_NoDup; [|exact Hnd]. apply drawRandomTickets_drawn_submseteq.
  - assert (Forall2 (λ g t, g ∈ pool ∧ t ∈ ticketNumbers (objs g))
              (winners r) (drawnTickets r)) as Hown.
    { unfold r, drawRandomTickets, drawRandomTickets_run. simpl.
      set (st0 := mkLoopState [] [] pool pos).
      apply (draw_loop_invariant rnd objs
               (λ s, Forall2 (λ g t, g ∈ pool ∧ t ∈ ticketNumbers (objs g))
                       (ls_winners s) (ls_drawnTickets s)
                     ∧ ls_availableGuides s ⊆ pool) ); [done| |done].
      simpl. intros w d avail pos' c k [HP Hsub] Hc _ Hk. split.
      - apply Forall2_app; [done|]. constructor; [|constructor].
        apply collectTickets_elem in Hc as [Hg Hc]. split; [by apply Hsub|done].
      - intros x Hx. apply Hsub. by eapply list_elem_of_delete_inv. }
    eapply Forall2_impl; [exact Hown|]. simpl. intros g t [Hg Ht].
    by apply findGuideByTicket_owner.
  - intros g t.
    destruct (decide (collectTickets objs pool = [])) as [Hnil|Hsome].
    + by rewrite drawRandomTicket_none.
    + destruct (drawRandomTicket_some rnd objs pos pool Hsome) as (c & Hc & ->).
      simpl. intros [= <-] [= <-].
      apply list_elem_of_lookup_2 in Hc. apply collectTickets_elem in Hc as [Hg Ht].
      by apply findGuideByTicket_owner.
Qed.

(** The pool of two participants, two winners asked for. *)
Lemma distinct_tickets_distinct_draws_witness :
  let r := drawRandomTickets sampleTape sampleObjects 0 [0%nat; 1%nat] 2 in
  NoDup (drawnTickets r)
  ∧ Forall2 (λ g t, findGuideByTicket sampleObjects t [0%nat; 1%nat] = Some g)
      (winners r) (drawnTickets r)
  ∧ (∀ g t,
       winner (drawRandomTicket sampleTape sampleObjects 0 [0%nat; 1%nat]).1 = Some g →
       drawnTicket (drawRandomTicket sampleTape sampleObjects 0 [0%nat; 1%nat]).1 = Some t →
       findGuideByTicket sampleObjects t [0%nat; 1%nat] = Some g).
Proof.
  apply (distinct_tickets_distinct_draws sampleTape sampleObjects 0 [0%nat; 1%nat] 2).
  compute_done.
Defined.

(** ** The pool of an allocation *)

Lemma objectsOf_poolOf (out : list GuideWithTickets) :
  objectsOf out <$> poolOf out = out.
Proof.
  apply list_eq; intros i. unfold poolOf, objectsOf. rewrite list_lookup_fmap.
  destruct (decide (i < length out)%nat) as [Hi|Hi].
  - rewrite lookup_seq_lt by done. simpl.
    symmetry. by apply list_lookup_lookup_total_lt.
  - rewrite lookup_seq_ge by lia. symmetry. apply lookup_ge_None. lia.
Qed.

Lemma poolOf_tickets (out : list GuideWithTickets) :
  cand_ticket <$> collectTickets (objectsOf out) (poolOf out) = issuedTickets out.
Proof.
  rewrite candidate_tickets. unfold issuedTickets.
  transitivity ((objectsOf out <$> poolOf out) ≫= ticketNumbers).
  - by rewrite list_fmap_bind.
  - rewrite objectsOf_poolOf. by rewrite list_join_bind, list_fmap_bind.
Qed.

Lemma poolOf_lookup (out : list GuideWithTickets) i o :
  out !! i = Some o → i ∈ poolOf out ∧ objectsOf out i = o.
Proof.
  intros Hi. split.
  - unfold poolOf. apply elem_of_seq. apply lookup_lt_Some in Hi. lia.
  - unfold objectsOf. by apply list_lookup_total_correct.
Qed.

(** X7. After an allocation, [findGuideByTicket] of a number from 1 to [N]
    returns the one output that holds it, and of any other number null. *)
Theorem allocation_lookup_round_trip rnd pos guides t :
  let out := (assignTicketsToGuides rnd pos guides).1 in
  let N := sumTotalTickets guides in
  (1 ≤ t ≤ N →
     ∃ (i : nat) o, findGuideByTicket (objectsOf out) t (poolOf out) = Some i
            ∧ out !! i = Some o ∧ t ∈ ticketNumbers o
            ∧ ∀ (j : nat) o', out !! j = Some o' → t ∈ ticketNumbers o' → j = i)
  ∧ (¬ (1 ≤ t ≤ N) → findGuideByTicket (objectsOf out) t (poolOf out) = None).
Proof.
  intros out N.
  pose proof (assignTicketsToGuides_issued rnd pos guides) as Hissued.
  fold out N in Hissued.
  assert (NoDup (issuedTickets out)) as Hnd.
  { rewrite Hissued. apply ticketSequence_NoDup. }
  assert (∀ x, x ∈ issuedTickets out ↔ 1 ≤ x ≤ N) as Hrange.
  { intros x. rewrite Hissued. apply ticketSequence_elem. }
  assert (NoDup (cand_ticket <$> collectTickets (objectsOf out) (poolOf out))) as Hnd'
    by by rewrite poolOf_tickets.
  clearbody out N. split.
  - intros Ht. apply Hrange in Ht. unfold issuedTickets in Ht.
    apply list_elem_of_join in Ht as (tn & Ht & Htn).
    apply list_elem_of_fmap in Htn as (o & -> & Ho).
    apply list_elem_of_lookup in Ho as [i Hi].
    destruct (poolOf_lookup out i o Hi) as [Hpool Hobj].
    exists i, o. split_and!; [|done..|].
    + apply findGuideByTicket_owner; [done..|]. by rewrite Hobj.
    + intros j o' Hj Ht'. destruct (decide (j = i)) as [|Hne]; [done|].
      unfold issuedTickets in Hnd.
      assert ((ticketNumbers <$> out) !! j = Some (ticketNumbers o')) as Hj'
        by (rewrite list_lookup_fmap; by rewrite Hj).
      assert ((ticketNumbers <$> out) !! i = Some (ticketNumbers o)) as Hi'
        by (rewrite list_lookup_fmap; by rewrite Hi).
      by destruct (NoDup_join_disjoint _ j i _ _ t Hnd Hne Hj' Hi' Ht').
  - intros Hout. apply findGuideByTicket_None. intros g Hg Ht. apply Hout, Hrange.
    unfold poolOf in Hg. apply elem_of_seq in Hg.
    destruct (lookup_lt_is_Some_2 out g) as [o Ho]; [lia|].
    destruct (poolOf_lookup out g o Ho) as [_ Hobj]. rewrite Hobj in Ht.
    unfold issuedTickets. apply list_elem_of_join. exists (ticketNumbers o).
    split; [done|]. apply list_elem_of_fmap. exists o. split; [done|].
    by eapply list_elem_of_lookup_2.
Qed.

Lemma filter_fmap_length {A B} (f : A → B) (P : B → Prop) (Q : A → Prop)
    `{∀ y, Decision (P y)} `{∀ x, Decision (Q x)} (l : list A) :
  (∀ x, Q x ↔ P (f x)) →
  length (filter Q l) = length (filter P (f <$> l)).
Proof.
  intros HQ. induction l as [|x l IH]; [done|].
  rewrite fmap_cons, !filter_cons.
  destruct (decide (Q x)) as [Hx|Hx], (decide (P (f x))) as [Hy|Hy]; simpl;
    rewrite ?IH; try done; exfalso; apply HQ in Hx || apply HQ in Hy; done.
Qed.

Lemma filter_submseteq_mono {A} (P : A → Prop) `{∀ x, Decision (P x)} (l k : list A) :
  l ⊆+ k → filter P l ⊆+ filter P k.
Proof.
  intros Hsub. apply submseteq_Permutation in Hsub as [k' Hk].
  rewrite Hk, filter_app. by apply submseteq_inserts_r.
Qed.

Lemma filter_all {A} (P : A → Prop) `{∀ x, Decision (P x)} (l : list A) :
  Forall P l → filter P l = l.
Proof.
  induction 1 as [|x l Hx _ IH]; [done|].
  by rewrite filter_cons, decide_True, IH.
Qed.

(** ** The number of winners on every count *)

(** X8. On a pool without a ticket numbered 0, [drawRandomTickets] returns
    as many winners as asked for, or as many as the pool has entries holding
    a ticket when these are fewer; when the count covers them, the winners
    are, in some order, exactly the entries that hold a ticket. *)
Theorem drawRandomTickets_count_general rnd objs pos pool count :
  ticketsNonzero objs pool →
  let r := drawRandomTickets rnd objs pos pool count in
  length (winners r) = Nat.min (Z.to_nat count) (length (holders objs pool))
  ∧ (Z.of_nat (length (holders objs pool)) ≤ count → winners r ≡ₚ holders objs pool).
Proof.
  intros Hnz r.
  assert (length (winners r)
          = Nat.min (Z.to_nat count) (length (holders objs pool))) as Hlen
    by by apply drawRandomTickets_length.
  split; [done|]. intros Hcount.
  apply submseteq_length_Permutation; [|lia].
  assert (Forall (holdsTicket objs) (winners r)) as Hall.
  { unfold r, drawRandomTickets, drawRandomTickets_run. simpl.
    by apply draw_loop_recorded. }
  rewrite <- (filter_all (holdsTicket objs) (winners r) Hall).
  apply filter_submseteq_mono, drawRandomTickets_submseteq.
Qed.

(** The pool of two participants, one winner asked for. *)
Lemma drawRandomTickets_count_general_witness :
  let r := drawRandomTickets sampleTape sampleObjects 0 [0%nat; 1%nat] 1 in
  length (winners r) = Nat.min (Z.to_nat 1) (length (holders sampleObjects [0%nat; 1%nat]))
  ∧ (Z.of_nat (length (holders sampleObjects [0%nat; 1%nat])) ≤ 1 →
     winners r ≡ₚ holders sampleObjects [0%nat; 1%nat]).
Proof.
  apply (drawRandomTickets_count_general sampleTape sampleObjects 0 [0%nat; 1%nat] 1).
  check_pool.
Defined.

(** ** A draw from the pool of an allocation *)

Lemma poolOf_ticketsNonzero rnd pos guides :
  let out := (assignTicketsToGuides rnd pos guides).1 in
  ticketsNonzero (objectsOf out) (poolOf out).
Proof.
  intros out. unfold ticketsNonzero. apply Forall_forall. intros g Hg.
  apply Forall_forall. intros t Ht.
  assert (t ∈ cand_ticket <$> collectTickets (objectsOf out) (poolOf out)) as Hin.
  { apply list_elem_of_fmap. exists (mkCandidate t g). split; [done|].
    by apply collectTickets_elem. }
  rewrite poolOf_tickets in Hin. unfold out in Hin.
  rewrite assignTicketsToGuides_issued in Hin. apply ticketSequence_elem in Hin. lia.
Qed.

Lemma poolOf_holders (out : list GuideWithTickets) :
  length (holders (objectsOf out) (poolOf out))
  = length (filter (λ o, ticketNumbers o ≠ []) out).
Proof.
  unfold holders.
  rewrite (filter_fmap_length (objectsOf out) (λ o, ticketNumbers o ≠ [])
             (holdsTicket (objectsOf out))) by done.
  by rewrite objectsOf_poolOf.
Qed.

(** X9. A draw from the pool that [assignTicketsToGuides] returns, for every
    list of guides and every count: the winners are pairwise different
    outputs, the drawn tickets are pairwise different numbers from 1 to [N],
    and there are as many winners as asked for, or as many as there are
    outputs holding a ticket when these are fewer. *)
Theorem allocate_then_draw rnd pos guides rnd' pos' count :
  let out := (assignTicketsToGuides rnd pos guides).1 in
  let N := sumTotalTickets guides in
  let r := drawRandomTickets rnd' (objectsOf out) pos' (poolOf out) count in
  NoDup (winners r)
  ∧ NoDup (drawnTickets r)
  ∧ Forall (λ t, 1 ≤ t ≤ N) (drawnTickets r)
  ∧ length (winners r)
    = Nat.min (Z.to_nat count) (length (filter (λ o, ticketNumbers o ≠ []) out)).
Proof.
  intros out N r.
  pose proof (assignTicketsToGuides_issued rnd pos guides) as Hissued.
  fold out N in Hissued.
  pose proof (drawRandomTickets_drawn_submseteq rnd' (objectsOf out) pos' (poolOf out)
                count) as Hdrawn.
  fold r in Hdrawn. rewrite poolOf_tickets, Hissued in Hdrawn.
  split_and!.
  - eapply submseteq_NoDup; [apply drawRandomTickets_submseteq|]. apply NoDup_seq.
  - eapply submseteq_NoDup; [exact Hdrawn|]. apply ticketSequence_NoDup.
  - apply Forall_forall. intros t Ht. apply ticketSequence_elem.
    eapply elem_of_submseteq; [exact Ht|exact Hdrawn].
  - unfold r. rewrite drawRandomTickets_length by apply poolOf_ticketsNonzero.
    by rewrite poolOf_holders.
Qed.

(** ** The animated draw *)

Lemma evictById_elem objs w prev g :
  g ∈ evictById objs w prev ↔ g ∈ prev ∧ participant objs g ≠ participant objs w.
Proof. unfold evictById. rewrite list_elem_of_filter. tauto. Qed.

Lemma filter_ne_delete {A B} `{EqDecision B} (f : A → B) (l : list A) k w :
  NoDup (f <$> l) → l !! k = Some w →
  filter (λ g, f g ≠ f w) l = delete k l.
Proof.
  revert k. induction l as [|x l IH]; intros k Hnd Hk; [done|].
  rewrite fmap_cons in Hnd. apply NoDup_cons in Hnd as [Hx Hnd].
  rewrite filter_cons. destruct k as [|k]; simplify_eq/=.
  - rewrite decide_False by (intros Hne; by apply Hne).
    apply filter_all. apply Forall_forall. intros g Hg Heq. apply Hx.
    rewrite <- Heq. by apply list_elem_of_fmap_2.
  - rewrite decide_True.
    + f_equal. by apply IH.
    + intros Heq. apply Hx. rewrite Heq. apply list_elem_of_fmap_2.
      by eapply list_elem_of_lookup_2.
Qed.

(** X10. On a list of guides with pairwise different ids, the eviction of
    the animated draw (every entry with the winner's id) and the eviction
    of [drawRandomTickets] (the first slot that holds the winner) leave the
    same list. *)
Theorem evictions_agree_on_distinct_ids objs avail w :
  NoDup (participant objs <$> avail) → w ∈ avail →
  evictById objs w avail = splice1 (indexOf avail w) avail.
Proof.
  intros Hnd Hw. destruct (splice1_indexOf avail w Hw) as (k & Hk & _ & ->).
  by apply filter_ne_delete.
Qed.

(** The second guide of the pool of two participants. *)
Lemma evictions_agree_on_distinct_ids_witness :
  evictById sampleObjects 1%nat [0%nat; 1%nat]
  = splice1 (indexOf [0%nat; 1%nat] 1%nat) [0%nat; 1%nat].
Proof.
  apply (evictions_agree_on_distinct_ids sampleObjects [0%nat; 1%nat] 1%nat).
  - compute_done.
  - compute_done.
Defined.

(** X11. One step of the animated draw keeps the winners apart from the
    guides still available. If the ids of the winners so far are pairwise
    different, no available guide has the id of a winner, and the step reads
    guides that are still available, then the same holds after the step; the
    available guides are a sublist of those before; and the step either
    reveals a guide it read with one of that guide's tickets, a ticket other
    than 0, and evicts every entry with that guide's id, or completes and
    leaves the three lists as they were. *)
Theorem drawSingleTicket_keeps_winners_distinct rnd objs pos seen s :
  NoDup (participant objs <$> allWinners s) →
  (∀ g, g ∈ availableGuides s → participant objs g ∉ participant objs <$> allWinners s) →
  seen ⊆ availableGuides s →
  let s' := drawSingleTicket rnd objs pos seen s in
  NoDup (participant objs <$> allWinners s')
  ∧ (∀ g, g ∈ availableGuides s' →
          participant objs g ∉ participant objs <$> allWinners s')
  ∧ availableGuides s' `sublist_of` availableGuides s
  ∧ match animationPhase s' with
    | Revealing =>
        ∃ w t, allWinners s' = allWinners s ++ [w]
               ∧ allDrawnTickets s' = allDrawnTickets s ++ [t]
               ∧ w ∈ seen ∧ t ∈ ticketNumbers (objs w) ∧ t ≠ 0
               ∧ availableGuides s' = evictById objs w (availableGuides s)
    | _ =>
        allWinners s' = allWinners s ∧ allDrawnTickets s' = allDrawnTickets s
        ∧ availableGuides s' = availableGuides s
    end.
Proof.
  intros Hnd Hfree Hseen s'. unfold s', drawSingleTicket.
  destruct (decide (collectTickets objs seen = [])) as [Hnil|Hsome].
  { rewrite drawRandomTicket_none by done. simpl. split_and!; done. }
  destruct (drawRandomTicket_some rnd objs pos seen Hsome) as (c & Hc & ->).
  cbn [fst winner drawnTicket]. apply list_elem_of_lookup_2 in Hc.
  apply collectTickets_elem in Hc as [Hg Ht].
  unfold truthy. destruct (Z.eqb_spec (cand_ticket c) 0) as [H0|H0]; cbn [negb].
  { simpl. split_and!; done. }
  simpl. split_and!.
  - rewrite fmap_app. apply NoDup_app. split_and!; [done| |apply NoDup_singleton].
    intros x Hx Hx'. apply list_elem_of_singleton in Hx' as ->.
    by apply (Hfree (cand_guide c)); [apply Hseen|].
  - intros g Hg'. apply evictById_elem in Hg' as [Hg' Hne].
    rewrite fmap_app. intros Hin. apply elem_of_app in Hin as [Hin|Hin].
    + by apply (Hfree g).
    + apply list_elem_of_singleton in Hin. done.
  - apply sublist_filter.
  - exists (cand_guide c), (cand_ticket c). split_and!; done.
Qed.

(** The first step on the pool built from the roster that names guide 1
    twice. *)
Lemma drawSingleTicket_keeps_winners_distinct_witness :
  let s := mkDrawSession [0%nat; 1%nat] [] [] Drawing in
  let s' := drawSingleTicket sampleTape twinObjects 0 [0%nat; 1%nat] s in
  NoDup (participant twinObjects <$> allWinners s')
  ∧ (∀ g, g ∈ availableGuides s' →
          participant twinObjects g ∉ participant twinObjects <$> allWinners s')
  ∧ availableGuides s' `sublist_of` availableGuides s
  ∧ match animationPhase s' with
    | Revealing =>
        ∃ w t, allWinners s' = allWinners s ++ [w]
               ∧ allDrawnTickets s' = allDrawnTickets s ++ [t]
               ∧ w ∈ [0%nat; 1%nat] ∧ t ∈ ticketNumbers (twinObjects w) ∧ t ≠ 0
               ∧ availableGuides s' = evictById twinObjects w (availableGuides s)
    | _ =>
        allWinners s' = allWinners s ∧ allDrawnTickets s' = allDrawnTickets s
        ∧ availableGuides s' = availableGuides s
    end.
Proof.
  apply (drawSingleTicket_keeps_winners_distinct sampleTape twinObjects 0
           [0%nat; 1%nat] (mkDrawSession [0%nat; 1%nat] [] [] Drawing)).
  - simpl. apply NoDup_nil_2.
  - simpl. intros g _ Hg. by apply elem_of_nil in Hg.
  - done.
Defined.

(** ** The range-based draw *)

Lemma removeTickets_filter_prefix w n (l : list Z) :
  (n ≤ length l)%nat →
  removeTickets w n l = filter (λ t, inRange w t = false) (take n l) ++ drop n l.
Proof.
  revert l. induction n as [|j IH]; intros l Hn; [by rewrite take_0, drop_0|].
  destruct (lookup_lt_is_Some_2 l j) as [x Hx]; [lia|].
  cbn [removeTickets]. rewrite (list_lookup_total_correct _ _ _ Hx).
  rewrite (take_S_r _ _ _ Hx), filter_app, filter_cons, filter_nil.
  destruct (inRange w x) eqn:Hr.
  - rewrite IH by (rewrite length_delete by eauto; lia).
    rewrite decide_False by done. rewrite app_nil_r.
    rewrite delete_take_drop.
    rewrite take_app_length' by (rewrite length_take; lia).
    rewrite drop_app_length' by (rewrite length_take; lia). done.
  - rewrite IH by lia. rewrite decide_True by done.
    rewrite (drop_S _ _ _ Hx), <- app_assoc. done.
Qed.

Lemma removeTickets_filter w (l : list Z) :
  removeTickets w (length l) l = filter (λ t, inRange w t = false) l.
Proof.
  rewrite removeTickets_filter_prefix by done.
  by rewrite take_ge, drop_ge, app_nil_r.
Qed.

Lemma rangeDraw_ok_win guides A W T w drawn :
  rangeDraw_ok guides (mkRangeDraw A W T) →
  drawn ∈ A → w ∈ guides → inRange w drawn = true →
  (∀ w0, w0 ∈ W → rg_id w0 ≠ rg_id w) →
  rangeDraw_ok guides
    (mkRangeDraw (removeTickets w (length A) A) (W ++ [w]) (T ++ [drawn])).
Proof.
  intros (HndW & HndT & Hown & Hin & Hfree) Hdrawn Hw Hr Hnew.
  unfold rangeDraw_ok. simpl in *. split_and!.
  - rewrite fmap_app. apply NoDup_app. split_and!; [done| |apply NoDup_singleton].
    intros x Hx Hx'. apply list_elem_of_singleton in Hx' as ->.
    apply list_elem_of_fmap in Hx as (w0 & Hid & Hw0). by apply (Hnew w0).
  - apply NoDup_app. split_and!; [done| |apply NoDup_singleton].
    intros t Ht Ht'. apply list_elem_of_singleton in Ht' as ->.
    apply list_elem_of_lookup in Ht as [k Hk].
    destruct (Forall2_lookup_r _ _ _ _ _ Hown Hk) as (w0 & Hw0 & Hr0).
    rewrite (Hfree drawn w0) in Hr0; [done|done|].
    by eapply list_elem_of_lookup_2.
  - apply Forall2_app; [done|]. by repeat constructor.
  - apply Forall_app. split; [done|]. by repeat constructor.
  - intros t w0 Ht Hw0. rewrite removeTickets_filter in Ht.
    apply list_elem_of_filter in Ht as [Ht HtA].
    apply elem_of_app in Hw0 as [Hw0|Hw0]; [by apply Hfree|].
    by apply list_elem_of_singleton in Hw0 as ->.
Qed.

Lemma find_id_none (W : list RangeGuide) w :
  List.find (λ w', bool_decide (rg_id w' = rg_id w)) W = None →
  ∀ w0, w0 ∈ W → rg_id w0 ≠ rg_id w.
Proof.
  intros Hwon w0 Hw0. apply list_elem_of_In in Hw0.
  pose proof (find_none _ _ Hwon w0 Hw0) as Hne. simpl in Hne.
  by apply bool_decide_eq_false in Hne.
Qed.

Lemma drawTickets_loop_ok rnd guides n i st :
  rangeDraw_ok guides st →
  rangeDraw_ok guides (drawTickets_loop rnd guides n i st)
  ∧ (length (rd_winners (drawTickets_loop rnd guides n i st))
     ≤ length (rd_winners st) + n)%nat.
Proof.
  revert i st. induction n as [|n IH]; intros i [A W T] Hok; [simpl; split; [done|lia]|].
  cbn [drawTickets_loop rd_allTickets rd_winners rd_tickets].
  case_decide as Hlen; [|simpl; split; [done|lia]].
  set (drawn := A !!! random_index rnd i (length A)).
  assert (drawn ∈ A) as Hdrawn.
  { eapply list_elem_of_lookup_2, list_lookup_lookup_total_lt.
    apply random_index_lt. lia. }
  assert (∀ st', rangeDraw_ok guides st' →
            (length (rd_winners st') ≤ length W + 1)%nat →
            rangeDraw_ok guides (drawTickets_loop rnd guides n (S i) st')
            ∧ (length (rd_winners (drawTickets_loop rnd guides n (S i) st'))
               ≤ length W + S n)%nat) as Hnext.
  { intros st' Hok' Hlen'. destruct (IH (S i) st' Hok') as [H1 H2]. split; [done|lia]. }
  destruct (List.find (λ g, inRange g drawn) guides) as [w|] eqn:Hfind.
  2: { apply Hnext; [done|simpl; lia]. }
  destruct (List.find (λ w', bool_decide (rg_id w' = rg_id w)) W) as [w'|] eqn:Hwon.
  { apply Hnext; [done|simpl; lia]. }
  apply find_some in Hfind as [Hw Hr]. apply list_elem_of_In in Hw.
  apply Hnext; [|simpl; rewrite length_app; simpl; lia].
  apply rangeDraw_ok_win; [done..|]. by apply find_id_none.
Qed.

(** X12. [drawTickets] on every list of guides and every count: the winners
    have pairwise different ids, the drawn tickets are pairwise different,
    each drawn ticket lies in the range of the winner recorded with it,
    every winner is a guide of the list, and there are no more winners than
    asked for. *)
Theorem drawTickets_distinct_winners rnd guides winnerCount :
  let r := drawTickets rnd guides winnerCount in
  NoDup (rg_id <$> r.1)
  ∧ NoDup r.2
  ∧ Forall2 (λ w t, inRange w t = true) r.1 r.2
  ∧ Forall (λ w, w ∈ guides) r.1
  ∧ Z.of_nat (length r.1) ≤ Z.max 0 winnerCount.
Proof.
  intros r. unfold r, drawTickets.
  case_decide as Hempty.
  { simpl. split_and!; try constructor. lia. }
  destruct (drawTickets_loop_ok rnd guides (Z.to_nat winnerCount) 0
              (mkRangeDraw (buildTicketPool guides) [] [])) as [Hok Hlen].
  { unfold rangeDraw_ok. simpl. split_and!; try constructor.
    intros t w _ Hw. by apply elem_of_nil in Hw. }
  destruct Hok as (H1 & H2 & H3 & H4 & _). simpl in *.
  split_and!; [done..|lia].
Qed.

Lemma push_range_tickets (start : Z) (idx : list nat) (acc : list Z) :
  fold_left (λ acc' (i : nat), acc' ++ [start + Z.of_nat i]) idx acc
  = acc ++ ((λ i : nat, start + Z.of_nat i) <$> idx).
Proof.
  revert acc. induction idx as [|i idx IH]; intros acc; simpl.
  - by rewrite app_nil_r.
  - rewrite IH, <- app_assoc. done.
Qed.

Lemma buildTicketPool_bind guides :
  buildTicketPool guides
  = guides ≫= (λ g, (λ i : nat, startTicket g + Z.of_nat i)
                       <$> seq 0 (Z.to_nat (rg_totalTickets g))).
Proof.
  unfold buildTicketPool.
  assert (∀ acc, fold_left
    (λ acc g,
       fold_left (λ acc' (i : nat), acc' ++ [startTicket g + Z.of_nat i])
         (seq 0 (Z.to_nat (rg_totalTickets g))) acc) guides acc
    = acc ++ (guides ≫= (λ g, (λ i : nat, startTicket g + Z.of_nat i)
                                <$> seq 0 (Z.to_nat (rg_totalTickets g))))) as Hgen.
  { induction guides as [|g gs IH]; intros acc; simpl.
    - by rewrite app_nil_r.
    - rewrite IH, push_range_tickets, <- app_assoc. done. }
  by rewrite Hgen.
Qed.

Lemma buildTicketPool_owned guides t :
  t ∈ buildTicketPool guides ↔ ∃ g, g ∈ guides ∧ inRange g t = true.
Proof.
  rewrite buildTicketPool_bind, list_elem_of_bind. unfold inRange. split.
  - intros (g & Ht & Hg). exists g. split; [done|].
    apply list_elem_of_fmap in Ht as (i & -> & Hi). apply elem_of_seq in Hi.
    apply andb_true_iff. split; [apply Z.leb_le|apply Z.ltb_lt]; lia.
  - intros (g & Hg & Hr). exists g. split; [|done].
    apply andb_true_iff in Hr as [H1 H2]. apply Z.leb_le in H1. apply Z.ltb_lt in H2.
    apply list_elem_of_fmap. exists (Z.to_nat (t - startTicket g)). split; [lia|].
    apply elem_of_seq. lia.
Qed.

Lemma drawTickets_loop_progress rnd guides n i st :
  NoDup (rg_id <$> guides) →
  rangeDraw_ok guides st →
  (∀ t, t ∈ rd_allTickets st → t ∈ buildTicketPool guides) →
  (∀ t, t ∈ buildTicketPool guides →
        t ∈ rd_allTickets st ∨ ∃ w, w ∈ rd_winners st ∧ inRange w t = true) →
  let st' := drawTickets_loop rnd guides n i st in
  (∀ t, t ∈ buildTicketPool guides →
        t ∈ rd_allTickets st' ∨ ∃ w, w ∈ rd_winners st' ∧ inRange w t = true)
  ∧ (length (rd_winners st') = (length (rd_winners st) + n)%nat
     ∨ rd_allTickets st' = []).
Proof.
  intros Hids. revert i st. induction n as [|n IH]; intros i [A W T] Hok Hsub Hcov.
  { simpl. split; [done|]. left. lia. }
  cbn [drawTickets_loop rd_allTickets rd_winners rd_tickets] in *.
  case_decide as Hlen.
  2: { simpl. split; [done|]. right. apply length_zero_iff_nil. lia. }
  set (drawn := A !!! random_index rnd i (length A)).
  assert (drawn ∈ A) as Hdrawn.
  { eapply list_elem_of_lookup_2, list_lookup_lookup_total_lt.
    apply random_index_lt. lia. }
  destruct Hok as (HndW & HndT & Hown & Hin & Hfree). simpl in *.
  destruct (List.find (λ g, inRange g drawn) guides) as [w|] eqn:Hfind.
  2: { exfalso. destruct (proj1 (buildTicketPool_owned guides drawn) (Hsub _ Hdrawn))
         as (g & Hg & Hr).
       apply list_elem_of_In in Hg.
       pose proof (find_none _ _ Hfind g Hg) as Hno. simpl in Hno. congruence. }
  apply find_some in Hfind as [Hw Hr]. apply list_elem_of_In in Hw.
  destruct (List.find (λ w', bool_decide (rg_id w' = rg_id w)) W) as [w'|] eqn:Hwon.
  { exfalso. apply find_some in Hwon as [Hw' Hid]. apply list_elem_of_In in Hw'.
    apply bool_decide_eq_true in Hid.
    assert (w' = w) as ->.
    { rewrite Forall_forall in Hin. specialize (Hin w' Hw').
      apply list_elem_of_lookup in Hin as [k1 Hk1], Hw as [k2 Hk2].
      assert (k1 = k2) as ->.
      { eapply NoDup_lookup; [exact Hids|..]; rewrite list_lookup_fmap.
        - by rewrite Hk1.
        - rewrite Hk2. simpl. by rewrite Hid. }
      congruence. }
    rewrite (Hfree drawn w Hdrawn Hw') in Hr. done. }
  pose proof (find_id_none W w Hwon) as Hnew.
  assert (rangeDraw_ok guides (mkRangeDraw A W T)) as Hok by done.
  pose proof (rangeDraw_ok_win guides A W T w drawn Hok Hdrawn Hw Hr Hnew) as Hok1.
  destruct (IH (S i) _ Hok1) as [Hcov' Hlen'].
  - simpl. intros t Ht. rewrite removeTickets_filter in Ht.
    apply list_elem_of_filter in Ht as [_ Ht]. by apply Hsub.
  - simpl. intros t Ht. rewrite removeTickets_filter.
    destruct (Hcov t Ht) as [HA|(w0 & Hw0 & Hr0)].
    + destruct (inRange w t) eqn:Hrt.
      * right. exists w. split; [|done]. apply elem_of_app. right. left.
      * left. by apply list_elem_of_filter.
    + right. exists w0. split; [|done]. apply elem_of_app. by left.
  - split; [done|]. simpl in Hlen'. rewrite length_app in Hlen'. simpl in Hlen'.
    destruct Hlen' as [Hlen'|Hlen']; [left; lia|by right].
Qed.

(** X13. On guides with pairwise different ids, [drawTickets] returns as
    many winners as asked for, unless the tickets run out first: then every
    ticket in the range of a guide of the list lies in the range of a
    winner. *)
Theorem drawTickets_short_only_when_exhausted rnd guides winnerCount :
  NoDup (rg_id <$> guides) →
  let r := drawTickets rnd guides winnerCount in
  Z.of_nat (length r.1) = Z.max 0 winnerCount
  ∨ (∀ g t, g ∈ guides → inRange g t = true → ∃ w, w ∈ r.1 ∧ inRange w t = true).
Proof.
  intros Hids r. unfold r, drawTickets. case_decide as Hempty.
  { right. intros g t Hg Hr.
    assert (t ∈ buildTicketPool guides) as Ht by (apply buildTicketPool_owned; eauto).
    apply length_zero_iff_nil in Hempty. rewrite Hempty in Ht.
    by apply elem_of_nil in Ht. }
  destruct (drawTickets_loop_progress rnd guides (Z.to_nat winnerCount) 0
              (mkRangeDraw (buildTicketPool guides) [] []) Hids) as [Hcov Hlen].
  - unfold rangeDraw_ok. simpl. split_and!; try constructor.
    intros t w _ Hw. by apply elem_of_nil in Hw.
  - done.
  - simpl. intros t Ht. by left.
  - simpl in *. destruct Hlen as [Hlen|Hnil]; [left; lia|right].
    intros g t Hg Hr.
    destruct (Hcov t) as [HA|Hw]; [apply buildTicketPool_owned; eauto| |done].
    rewrite Hnil in HA. by apply elem_of_nil in HA.
Qed.

(** Two guides with the ranges 1 to 3 and 4 to 5, five winners asked for. *)
Lemma drawTickets_short_only_when_exhausted_witness :
  let guides := [mkRangeGuide 1 1 3; mkRangeGuide 2 4 2] in
  let r := drawTickets sampleTape guides 5 in
  Z.of_nat (length r.1) = Z.max 0 5
  ∨ (∀ g t, g ∈ guides → inRange g t = true → ∃ w, w ∈ r.1 ∧ inRange w t = true).
Proof.
  apply (drawTickets_short_only_when_exhausted sampleTape
           [mkRangeGuide 1 1 3; mkRangeGuide 2 4 2] 5).
  compute_done.
Defined.

(** ** Two draws from the same array *)

Lemma store_drawRandomTickets_unfold rnd pos pool count h :
  let final :=
    drawRandomTickets_run rnd (Store.guideObjects h) pos (Store.readArray h pool) count in
  Store.drawRandomTickets rnd pos pool count h
  = (mkDrawn (ls_winners final) (ls_drawnTickets final), ls_pos final,
     Store.mkHeap (Store.guideObjects h)
       (<[fresh (dom (Store.arrays h)) := ls_availableGuides final]> (Store.arrays h))).
Proof.
  intros final. unfold Store.drawRandomTickets, Store.allocArray.
  by rewrite store_draw_loop_simulation.
Qed.

(** X14. Two calls of [drawRandomTickets] on the same array: the second
    call draws from the whole pool again, the winners of the first call
    included, and after both calls the array has the contents it had. *)
Theorem second_draw_sees_whole_pool rnd pos pool count count' h :
  pool ∈ dom (Store.arrays h) →
  let first := Store.drawRandomTickets rnd pos pool count h in
  let second := Store.drawRandomTickets rnd first.1.2 pool count' first.2 in
  second.1.1
  = drawRandomTickets rnd (Store.guideObjects h) first.1.2 (Store.readArray h pool) count'
  ∧ Store.readArray second.2 pool = Store.readArray h pool.
Proof.
  intros Hpool first second.
  assert (∀ p c h0, pool ∈ dom (Store.arrays h0) →
            Store.guideObjects (Store.drawRandomTickets rnd p pool c h0).2
            = Store.guideObjects h0
            ∧ Store.readArray (Store.drawRandomTickets rnd p pool c h0).2 pool
              = Store.readArray h0 pool
            ∧ pool ∈ dom (Store.arrays (Store.drawRandomTickets rnd p pool c h0).2))
    as Hkeep.
  { intros p c h0 Hin. rewrite store_drawRandomTickets_unfold. simpl.
    assert (fresh (dom (Store.arrays h0)) ≠ pool) as Hne.
    { intros Heq. rewrite <- Heq in Hin. by apply is_fresh in Hin. }
    split_and!; [done| |].
    - unfold Store.readArray. simpl. by rewrite lookup_insert_ne.
    - rewrite dom_insert. apply elem_of_union. by right. }
  destruct (Hkeep pos count h Hpool) as (Hobj & Hread & Hdom). fold first in Hobj, Hread, Hdom.
  clearbody first. split.
  - unfold second. rewrite store_drawRandomTickets_unfold. cbn [fst snd].
    unfold drawRandomTickets. by rewrite Hobj, Hread.
  - destruct (Hkeep first.1.2 count' first.2 Hdom) as (_ & Hread' & _).
    fold second in Hread'. by rewrite Hread'.
Qed.

(** The pool of two participants, one winner asked for, then two. *)
Lemma second_draw_sees_whole_pool_witness :
  let h := Store.mkHeap sampleObjects {[ 0%nat := [0%nat; 1%nat] ]} in
  let first := Store.drawRandomTickets sampleTape 0 0%nat 1 h in
  let second := Store.drawRandomTickets sampleTape first.1.2 0%nat 2 first.2 in
  second.1.1
  = drawRandomTickets sampleTape (Store.guideObjects h) first.1.2
      (Store.readArray h 0%nat) 2
  ∧ Store.readArray second.2 0%nat = Store.readArray h 0%nat.
Proof.
  apply (second_draw_sees_whole_pool sampleTape 0 0%nat 1 2
           (Store.mkHeap sampleObjects {[ 0%nat := [0%nat; 1%nat] ]})).
  simpl. rewrite dom_singleton. by apply elem_of_singleton.
Defined.

(** ** A draw without a winner *)

(** X15. [drawRandomTicket] returns a null winner exactly when no guide of
    the list holds a ticket, a null ticket exactly when the winner is null,
    and calls [Math.random] once when there is a winner and not at all when
    there is none. *)
Theorem drawRandomTicket_null_iff_no_ticket rnd objs pos pool :
  let d := (drawRandomTicket rnd objs pos pool).1 in
  let pos' := (drawRandomTicket rnd objs pos pool).2 in
  (winner d = None ↔ holders objs pool = [])
  ∧ (winner d = None ↔ drawnTicket d = None)
  ∧ pos' = (if winner d is Some _ then S pos else pos).
Proof.
  intros d pos'. unfold d, pos'.
  destruct (decide (collectTickets objs pool = [])) as [Hnil|Hsome].
  - rewrite drawRandomTicket_none by done. simpl.
    apply collectTickets_nil in Hnil. by rewrite Hnil.
  - destruct (drawRandomTicket_some rnd objs pos pool Hsome) as (c & _ & ->). simpl.
    rewrite collectTickets_nil in Hsome. split_and!; [split; done|split; done|done].
Qed.
